(** * speedy.wasm: the JavaScript ring buffer and the embind wrappers

    A shallow embedding of
    - [AudioRingBuffer] (demo/ring-buffer.js): the single-producer,
      single-consumer ring that carries planar float samples from the main
      thread to the audio worklet;
    - the placeholder exports [sonicEnableNonlinearSpeedup] and
      [sonicSetDurationFeedbackStrength] (wasm_exports.c);
    - the embind wrappers [SpeedyStreamWrapper] and [SonicStreamWrapper]
      (src/bindings.cpp), together with the process-wide [streamMap] that
      routes the speed callback;
    - [SpeedyWasmWrapper] (speedy-wasm-wrapper.js), the JavaScript class that
      drives the C exports through [cwrap].

    The C engine behind the wrappers (speedy.c, soniclib.c, sonic.c) is not
    part of the sources: its functions enter as section variables with their
    C signatures, and where a statement depends on what one of them returns
    it is modelled from the specification and marked as such. *)

From Stdlib Require Import ZArith Floats Uint63 Lia.
From stdpp Require Import base list gmap strings pretty.

Open Scope Z_scope.

(** ** Exceptions and a state monad with exceptions *)

Inductive exn : Type :=
  | TypeError (msg : string)
  | RangeError (msg : string)
  | BindingError (msg : string)
  | runtime_error (msg : string)
  | length_error (msg : string)
  | bad_alloc (msg : string)
  | Trap (msg : string).

Inductive outcome (A : Type) : Type :=
  | Return (a : A)
  | Throw (e : exn).
Arguments Return {A} a.
Arguments Throw {A} e.

Definition M (S A : Type) : Type := S -> outcome A * S.

Definition ret {S A} (a : A) : M S A := fun s => (Return a, s).
Definition throw {S A} (e : exn) : M S A := fun s => (Throw e, s).
Definition bind {S A B} (m : M S A) (k : A -> M S B) : M S B :=
  fun s =>
    match m s with
    | (Return a, s') => k a s'
    | (Throw e, s') => (Throw e, s')
    end.
Definition get {S} : M S S := fun s => (Return s, s).
Definition modify {S} (f : S -> S) : M S unit := fun s => (Return tt, f s).

Notation "'let*' x ':=' m 'in' k" := (bind m (fun x => k))
  (at level 10, x pattern, m at level 100, k at level 200).
Notation "m ';;' k" := (bind m (fun _ => k))
  (at level 100, k at level 200, right associativity).

(** [for (let i = 0; i < n; i++) body(i)] *)
Fixpoint for_each {S} (idx : list nat) (body : Z -> M S unit) : M S unit :=
  match idx with
  | [] => ret tt
  | i :: idx' => body (Z.of_nat i) ;; for_each idx' body
  end.

Definition for_upto {S} (n : Z) (body : Z -> M S unit) : M S unit :=
  for_each (seq 0 (Z.to_nat n)) body.

(** ** The JavaScript values the ring buffer computes with *)

Module Js.

(** ToInt32, applied by every store into an [Int32Array]. *)
Definition to_int32 (z : Z) : Z := (z + 2 ^ 31) mod 2 ^ 32 - 2 ^ 31.

(** [a % b] on integer-valued numbers: the remainder takes the sign of the
    dividend, and [a % 0] is NaN ([None]). *)
Definition rem (a b : Z) : option Z :=
  if b =? 0 then None else Some (Z.rem a b).

(** The value an [Int32Array] slot holds after storing [v]: NaN becomes 0. *)
Definition int32_of_number (v : option Z) : Z :=
  match v with
  | Some z => to_int32 z
  | None => 0
  end.

(** [a[i]] on a [Float32Array]: [undefined] ([None]) outside the array. *)
Definition typed_get (a : list float) (i : option Z) : option float :=
  match i with
  | Some z => if z <? 0 then None else a !! Z.to_nat z
  | None => None
  end.

(** [a[i] = v] on a [Float32Array]: ignored outside the array. *)
Definition typed_set (a : list float) (i : option Z) (v : float) : list float :=
  match i with
  | Some z => if z <? 0 then a else <[Z.to_nat z := v]> a
  | None => a
  end.

(** ToNumber followed by the conversion to float32 on a store of a value
    read from a [Float32Array]: [undefined] is stored as NaN. *)
Definition to_float32 (v : option float) : float := default nan v.

(** [a[ch]] on an array of typed arrays, about to be indexed again:
    indexing [undefined] raises a TypeError. *)
Definition channel {S} (a : list (list float)) (ch : Z) (msg : string)
  : M S (list float) :=
  match (if ch <? 0 then None else a !! Z.to_nat ch) with
  | Some c => ret c
  | None => throw (TypeError msg)
  end.

End Js.

(** ** demo/ring-buffer.js *)

Module RingBuffer.

(** [header[0]] is the write index and [header[1]] the read index, both
    int32; [storage] is the [Float32Array] of [capacity * channelCount]
    interleaved samples. *)
Record AudioRingBuffer : Type := {
  capacity : Z;
  channelCount : Z;
  writeIndex : Z;
  readIndex : Z;
  storage : list float
}.

Inductive header_slot : Type := Header0 | Header1.

(** [new AudioRingBuffer(capacity, channelCount)]: the shared buffer is
    zero-filled; a negative size is refused when the buffer and its views
    are allocated. *)
Definition new (capacity channelCount : Z) : outcome AudioRingBuffer :=
  if capacity * channelCount <? 0
  then Throw (RangeError "Invalid array buffer length")
  else
    Return {| capacity := capacity;
              channelCount := channelCount;
              writeIndex := 0;
              readIndex := 0;
              storage := replicate (Z.to_nat (capacity * channelCount)) 0%float |}.

Definition Atomics_load (slot : header_slot) : M AudioRingBuffer Z :=
  fun this =>
    (Return (match slot with
             | Header0 => writeIndex this
             | Header1 => readIndex this
             end), this).

Definition Atomics_store (slot : header_slot) (v : option Z)
  : M AudioRingBuffer unit :=
  modify (fun this =>
    match slot with
    | Header0 =>
        {| capacity := capacity this; channelCount := channelCount this;
           writeIndex := Js.int32_of_number v; readIndex := readIndex this;
           storage := storage this |}
    | Header1 =>
        {| capacity := capacity this; channelCount := channelCount this;
           writeIndex := writeIndex this; readIndex := Js.int32_of_number v;
           storage := storage this |}
    end).

Definition set_storage (st : list float) (this : AudioRingBuffer)
  : AudioRingBuffer :=
  {| capacity := capacity this; channelCount := channelCount this;
     writeIndex := writeIndex this; readIndex := readIndex this;
     storage := st |}.

(** [pos * this.channelCount + ch] *)
Definition slot_index (pos : option Z) (channelCount ch : Z) : option Z :=
  match pos with
  | Some p => Some (p * channelCount + ch)
  | None => None
  end.

(** [this.storage[pos * this.channelCount + ch] = inputData[ch][i]] *)
Definition store_sample (inputData : list (list float)) (pos : option Z)
    (i ch : Z) : M AudioRingBuffer unit :=
  let* chan := Js.channel inputData ch "Cannot read properties of undefined" in
  modify (fun this =>
    set_storage
      (Js.typed_set (storage this) (slot_index pos (channelCount this) ch)
         (Js.to_float32 (Js.typed_get chan (Some i))))
      this).

Definition write (inputData : list (list float)) : M AudioRingBuffer bool :=
  let* chan0 := Js.channel inputData 0 "Cannot read properties of undefined" in
  let inputLen := Z.of_nat (length chan0) in
  let* writeIndex := Atomics_load Header0 in
  let* readIndex := Atomics_load Header1 in
  let* this := get in
  let availableSpace :=
    if writeIndex >=? readIndex
    then capacity this - (writeIndex - readIndex)
    else readIndex - writeIndex in
  if availableSpace <? inputLen + 1 then ret false
  else
    for_upto inputLen (fun i =>
      let pos := Js.rem (writeIndex + i) (capacity this) in
      for_upto (channelCount this) (fun ch =>
        store_sample inputData pos i ch)) ;;
    Atomics_store Header0 (Js.rem (writeIndex + inputLen) (capacity this)) ;;
    ret true.

(** The consumer side mutates two objects: the ring ([this]) and the
    caller's [outputData]. *)
Definition reader : Type := AudioRingBuffer * list (list float).

Definition on_ring {A} (m : M AudioRingBuffer A) : M reader A :=
  fun s =>
    match m (fst s) with
    | (r, this') => (r, (this', snd s))
    end.

(** [outputData[ch][i] = this.storage[pos * this.channelCount + ch]] *)
Definition load_sample (pos : option Z) (i ch : Z) : M reader unit :=
  let* s := get in
  let this := fst s in
  let outputData := snd s in
  let* chan := Js.channel outputData ch "Cannot set properties of undefined" in
  let v := Js.to_float32
             (Js.typed_get (storage this)
                (slot_index pos (channelCount this) ch)) in
  modify (fun s : reader =>
    (fst s, <[Z.to_nat ch := Js.typed_set chan (Some i) v]> (snd s))).

Definition read (count : Z) : M reader bool :=
  let* writeIndex := on_ring (Atomics_load Header0) in
  let* readIndex := on_ring (Atomics_load Header1) in
  let* s := get in
  let this := fst s in
  let available :=
    if writeIndex >=? readIndex
    then writeIndex - readIndex
    else capacity this - (readIndex - writeIndex) in
  if available <? count then ret false
  else
    for_upto count (fun i =>
      let pos := Js.rem (readIndex + i) (capacity this) in
      for_upto (channelCount this) (fun ch => load_sample pos i ch)) ;;
    on_ring (Atomics_store Header1 (Js.rem (readIndex + count) (capacity this))) ;;
    ret true.

Definition available (this : AudioRingBuffer) : Z :=
  let writeIndex := writeIndex this in
  let readIndex := readIndex this in
  if writeIndex >=? readIndex
  then writeIndex - readIndex
  else capacity this - (readIndex - writeIndex).

(** *** Calls and traces

    A trace is a sequence of calls on one ring, in program order.  A
    successful [write] submits its block; a successful [read] delivers the
    first [count] samples of every channel of [outputData]. *)

Inductive call : Type :=
  | Write (inputData : list (list float))
  | Read (outputData : list (list float)) (count : Z).

Inductive event : Type :=
  | Submitted (block : list (list float))
  | Delivered (block : list (list float)).

Definition step (c : call) (this : AudioRingBuffer)
  : list event * AudioRingBuffer :=
  match c with
  | Write inputData =>
      match write inputData this with
      | (Return true, this') => ([Submitted inputData], this')
      | (_, this') => ([], this')
      end
  | Read outputData count =>
      match read count (this, outputData) with
      | (Return true, (this', outputData')) =>
          ([Delivered (take (Z.to_nat count) <$> outputData')], this')
      | (_, (this', _)) => ([], this')
      end
  end.

Fixpoint run (cs : list call) (this : AudioRingBuffer)
  : list event * AudioRingBuffer :=
  match cs with
  | [] => ([], this)
  | c :: cs' =>
      let '(es, this') := step c this in
      let '(es', this'') := run cs' this' in
      (es ++ es', this'')
  end.

(** The samples of channel [ch] in a block, and in a trace's events. *)
Definition channel_of (ch : nat) (block : list (list float)) : list float :=
  default [] (block !! ch).

Definition submitted (ch : nat) (es : list event) : list float :=
  concat (omap (fun e => match e with
                         | Submitted b => Some (channel_of ch b)
                         | Delivered _ => None
                         end) es).

Definition delivered (ch : nat) (es : list event) : list float :=
  concat (omap (fun e => match e with
                         | Delivered b => Some (channel_of ch b)
                         | Submitted _ => None
                         end) es).

(** A block of planar audio for [n] channels: one array per channel, all
    of the same length. *)
Definition planar (n : Z) (block : list (list float)) : Prop :=
  Z.of_nat (length block) = n /\
  Forall (fun c => length c = length (channel_of 0 block)) block.

(** What a caller owes the ring: blocks with one array per channel, a
    non-negative sample count, and output arrays, one object per channel,
    that hold [count] samples. *)
Definition well_formed_call (n : Z) (c : call) : Prop :=
  match c with
  | Write inputData => planar n inputData
  | Read outputData count =>
      0 <= count /\
      Z.of_nat (length outputData) = n /\
      Forall (fun c => count <= Z.of_nat (length c)) outputData
  end.

Definition count_nonneg (c : call) : Prop :=
  match c with
  | Write _ => True
  | Read _ count => 0 <= count
  end.

(** The free slots [write] computes before it decides. *)
Definition availableSpace (this : AudioRingBuffer) : Z :=
  if writeIndex this >=? readIndex this
  then capacity this - (writeIndex this - readIndex this)
  else readIndex this - writeIndex this.

(** *** The loops of [write] and [read], and what they compute

    The two nested loops of each method are named, and paired with the pure
    function on the storage (or on [outputData]) that they compute when
    every channel they index exists. *)

Definition write_loop (inputData : list (list float)) (n : Z)
    (this0 : AudioRingBuffer) : M AudioRingBuffer unit :=
  for_upto n (fun i =>
    let pos := Js.rem (writeIndex this0 + i) (capacity this0) in
    for_upto (channelCount this0) (fun ch => store_sample inputData pos i ch)).

Definition read_loop (count : Z) (this0 : AudioRingBuffer) : M reader unit :=
  for_upto count (fun i =>
    let pos := Js.rem (readIndex this0 + i) (capacity this0) in
    for_upto (channelCount this0) (fun ch => load_sample pos i ch)).

(** Everything but the storage agrees. *)
Definition same_header (a b : AudioRingBuffer) : Prop :=
  capacity b = capacity a /\ channelCount b = channelCount a /\
  writeIndex b = writeIndex a /\ readIndex b = readIndex a.

(** The capacity is positive and fits an int32; both indices address a
    slot. *)
Definition indices_in_range (this : AudioRingBuffer) : Prop :=
  0 < capacity this < 2 ^ 31 /\
  0 <= writeIndex this < capacity this /\
  0 <= readIndex this < capacity this.

Definition ring_ok (this : AudioRingBuffer) : Prop :=
  indices_in_range this /\ 0 <= channelCount this /\
  Z.of_nat (length (storage this)) = capacity this * channelCount this.

(** [this.storage[pos * this.channelCount + ch]], as a float32. *)
Definition sample_at (this : AudioRingBuffer) (pos ch : Z) : float :=
  Js.to_float32
    (Js.typed_get (storage this) (Some (pos * channelCount this + ch))).

(** The samples of channel [ch] between the read and the write index,
    oldest first. *)
Definition queued (this : AudioRingBuffer) (ch : nat) : list float :=
  (fun k => sample_at this ((readIndex this + Z.of_nat k) mod capacity this)
              (Z.of_nat ch))
    <$> seq 0 (Z.to_nat (available this)).

(** [inputData[ch][i]], as a float32. *)
Definition input_sample (inputData : list (list float)) (ch i : Z) : float :=
  Js.to_float32 (Js.typed_get (channel_of (Z.to_nat ch) inputData) (Some i)).

Definition put (inputData : list (list float)) (pos i ch : Z)
    (this : AudioRingBuffer) : AudioRingBuffer :=
  set_storage
    (Js.typed_set (storage this) (Some (pos * channelCount this + ch))
       (input_sample inputData ch i)) this.

Definition put_frame (inputData : list (list float)) (pos i : Z) (k : nat)
    (this : AudioRingBuffer) : AudioRingBuffer :=
  foldl (fun s ch => put inputData pos i (Z.of_nat ch) s) this (seq 0 k).

Definition put_block (inputData : list (list float)) (w cap cc : Z) (n : nat)
    (this : AudioRingBuffer) : AudioRingBuffer :=
  foldl (fun s i => put_frame inputData ((w + Z.of_nat i) mod cap) (Z.of_nat i)
                      (Z.to_nat cc) s) this (seq 0 n).

Definition get_into (p i : Z) (ch : nat) (s : reader) : reader :=
  (fst s,
   <[ch := <[Z.to_nat i := sample_at (fst s) p (Z.of_nat ch)]>
             (channel_of ch (snd s))]> (snd s)).

Definition get_frame (p i : Z) (k : nat) (s : reader) : reader :=
  foldl (fun s ch => get_into p i ch s) s (seq 0 k).

Definition get_block (r cap cc : Z) (m : nat) (s : reader) : reader :=
  foldl (fun s i => get_frame ((r + Z.of_nat i) mod cap) (Z.of_nat i)
                      (Z.to_nat cc) s) s (seq 0 m).

(** Three new rings, for examples. *)
Definition mono_ring_of_2 : AudioRingBuffer :=
  {| capacity := 2; channelCount := 1; writeIndex := 0; readIndex := 0;
     storage := [0; 0]%float |}.

Definition mono_ring_of_4 : AudioRingBuffer :=
  {| capacity := 4; channelCount := 1; writeIndex := 0; readIndex := 0;
     storage := [0; 0; 0; 0]%float |}.

Definition stereo_ring_of_4 : AudioRingBuffer :=
  {| capacity := 4; channelCount := 2; writeIndex := 0; readIndex := 0;
     storage := [0; 0; 0; 0; 0; 0; 0; 0]%float |}.

End RingBuffer.


(** * Facts about the ring buffer *)

Module RingBufferFacts.
Import RingBuffer.

Lemma for_each_inv {S} (P : S -> Prop) (idx : list nat) (body : Z -> M S unit) s :
  (forall i s, P s -> P (snd (body i s))) -> P s -> P (snd (for_each idx body s)).
Proof.
  intros Hb. revert s. induction idx as [|i idx IH]; intros s Hs; simpl; [done|].
  unfold bind. specialize (Hb (Z.of_nat i) s Hs).
  destruct (body (Z.of_nat i) s) as [[[]|e] s']; simpl in *; auto.
Qed.

Lemma for_each_pure {S} (P : S -> Prop) (f : nat -> S -> S) (idx : list nat)
    (body : Z -> M S unit) s :
  (forall i s, i ∈ idx -> P s ->
     body (Z.of_nat i) s = (Return tt, f i s) /\ P (f i s)) ->
  P s ->
  for_each idx body s = (Return tt, foldl (fun s i => f i s) s idx)
  /\ P (foldl (fun s i => f i s) s idx).
Proof.
  revert s. induction idx as [|i idx IH]; intros s Hb Hs; simpl; [done|].
  unfold bind. destruct (Hb i s) as [-> HP]; [left|done|].
  apply IH; [|done]. intros j s' Hj. apply Hb. by right.
Qed.

Lemma int32_of_rem (x cap : Z) :
  0 < cap < 2 ^ 31 -> 0 <= x ->
  Js.int32_of_number (Js.rem x cap) = x mod cap.
Proof.
  intros Hc Hx. unfold Js.rem, Js.int32_of_number, Js.to_int32.
  destruct (Z.eqb_spec cap 0) as [->|_]; [lia|].
  rewrite Z.rem_mod_nonneg by lia.
  pose proof (Z.mod_pos_bound x cap ltac:(lia)).
  rewrite Z.mod_small; lia.
Qed.

Lemma store_sample_header inputData pos i ch this :
  same_header this (snd (store_sample inputData pos i ch this)).
Proof.
  unfold store_sample, bind, Js.channel.
  destruct (if ch <? 0 then None else inputData !! Z.to_nat ch); simpl;
    by repeat split.
Qed.

Lemma write_loop_header inputData n this0 this :
  same_header this0 this ->
  same_header this0 (snd (write_loop inputData n this0 this)).
Proof.
  intros H. unfold write_loop, for_upto.
  apply (for_each_inv (same_header this0)); [|done].
  intros i s Hs. apply (for_each_inv (same_header this0)); [|done].
  intros ch s' Hs'.
  pose proof (store_sample_header inputData
                (Js.rem (writeIndex this0 + i) (capacity this0)) i ch s') as Hh.
  unfold same_header in *. intuition congruence.
Qed.

Lemma availableSpace_available this :
  indices_in_range this -> availableSpace this = capacity this - available this.
Proof.
  unfold availableSpace, available, indices_in_range. intros (Hc & Hw & Hr).
  destruct (Z.geb_spec (writeIndex this) (readIndex this)); lia.
Qed.

Lemma available_mod this :
  indices_in_range this ->
  available this = (writeIndex this - readIndex this) mod capacity this.
Proof.
  unfold available, indices_in_range. intros (Hc & Hw & Hr).
  destruct (Z.geb_spec (writeIndex this) (readIndex this)).
  - rewrite Z.mod_small; lia.
  - replace (writeIndex this - readIndex this)
      with (capacity this - (readIndex this - writeIndex this) + (-1) * capacity this) by lia.
    rewrite Z.mod_add by lia. rewrite Z.mod_small; lia.
Qed.

Lemma available_bounds this :
  indices_in_range this -> 0 <= available this <= capacity this - 1.
Proof.
  unfold available, indices_in_range. intros (Hc & Hw & Hr).
  destruct (Z.geb_spec (writeIndex this) (readIndex this)); lia.
Qed.

Lemma write_unfold inputData this :
  write inputData this =
  match inputData !! 0%nat with
  | None => (Throw (TypeError "Cannot read properties of undefined"), this)
  | Some chan0 =>
      let inputLen := Z.of_nat (length chan0) in
      if availableSpace this <? inputLen + 1 then (Return false, this)
      else
        match write_loop inputData inputLen this this with
        | (Return _, this1) =>
            (Return true,
             snd (Atomics_store Header0
                    (Js.rem (writeIndex this + inputLen) (capacity this)) this1))
        | (Throw e, this1) => (Throw e, this1)
        end
  end.
Proof.
  unfold write, bind, Js.channel. change (Z.to_nat 0) with 0%nat. simpl.
  destruct (inputData !! 0%nat) as [chan0|]; simpl; [|done].
  fold (availableSpace this).
  destruct (availableSpace this <? Z.of_nat (length chan0) + 1); [done|].
  unfold write_loop. by destruct (for_upto _ _ this) as [[[]|e] this1].
Qed.

(** [write] refuses without touching anything when the block does not fit. *)

Lemma write_refuses inputData chan0 this :
  inputData !! 0%nat = Some chan0 ->
  availableSpace this < Z.of_nat (length chan0) + 1 ->
  write inputData this = (Return false, this).
Proof.
  intros H0 Hfull. rewrite write_unfold, H0. simpl.
  destruct (Z.ltb_spec (availableSpace this) (Z.of_nat (length chan0) + 1)); [done|lia].
Qed.

Lemma write_indices inputData this :
  indices_in_range this ->
  indices_in_range (snd (write inputData this)) /\
  capacity (snd (write inputData this)) = capacity this /\
  channelCount (snd (write inputData this)) = channelCount this /\
  readIndex (snd (write inputData this)) = readIndex this.
Proof.
  intros Hin. rewrite write_unfold.
  destruct (inputData !! 0%nat) as [chan0|]; simpl; [|done].
  destruct (Z.ltb_spec (availableSpace this) (Z.of_nat (length chan0) + 1)); [done|].
  pose proof (write_loop_header inputData (Z.of_nat (length chan0)) this this) as Hl.
  destruct (write_loop _ _ this this) as [[[]|e] this1]; simpl in *.
  - destruct Hl as (Hc & Hcc & Hw & Hr); [by repeat split|].
    unfold indices_in_range in *. simpl. rewrite Hc, Hr.
    rewrite int32_of_rem by lia.
    pose proof (Z.mod_pos_bound (writeIndex this + Z.of_nat (length chan0)) (capacity this)).
    repeat split; lia.
  - destruct Hl as (Hc & Hcc & Hw & Hr); [by repeat split|].
    unfold indices_in_range in *. rewrite Hc, Hw, Hr. done.
Qed.

Lemma read_unfold count this outputData :
  read count (this, outputData) =
  if available this <? count then (Return false, (this, outputData))
  else
    match read_loop count this (this, outputData) with
    | (Return _, (this1, out1)) =>
        (Return true,
         (snd (Atomics_store Header1
                 (Js.rem (readIndex this + count) (capacity this)) this1), out1))
    | (Throw e, s1) => (Throw e, s1)
    end.
Proof.
  unfold read, bind, on_ring. simpl. fold (available this).
  destruct (available this <? count); [done|].
  unfold read_loop.
  by destruct (@for_upto reader _ _ (this, outputData)) as [[[]|e] [this1 out1]].
Qed.

Lemma load_sample_ring pos i ch (s : reader) :
  fst (snd (load_sample pos i ch s)) = fst s.
Proof.
  unfold load_sample, bind, Js.channel, get. simpl.
  by destruct (if ch <? 0 then None else s.2 !! Z.to_nat ch).
Qed.

Lemma read_loop_ring count this0 (s : reader) :
  fst (snd (read_loop count this0 s)) = fst s.
Proof.
  unfold read_loop, for_upto.
  apply (for_each_inv (fun s' : reader => fst s' = fst s)); [|done].
  intros i s1 Hs1. apply (for_each_inv (fun s' : reader => fst s' = fst s)); [|done].
  intros ch s2 Hs2. by rewrite load_sample_ring.
Qed.

Lemma read_indices count this outputData :
  indices_in_range this -> 0 <= count ->
  indices_in_range (fst (snd (read count (this, outputData)))) /\
  capacity (fst (snd (read count (this, outputData)))) = capacity this /\
  channelCount (fst (snd (read count (this, outputData)))) = channelCount this /\
  writeIndex (fst (snd (read count (this, outputData)))) = writeIndex this.
Proof.
  intros Hin Hcount. rewrite read_unfold.
  destruct (available this <? count); [done|].
  pose proof (read_loop_ring count this (this, outputData)) as Hl.
  destruct (read_loop count this (this, outputData)) as [[[]|e] [this1 out1]];
    simpl in *; subst this1; [|done].
  unfold indices_in_range in *. simpl.
  rewrite int32_of_rem by lia.
  pose proof (Z.mod_pos_bound (readIndex this + count) (capacity this)).
  repeat split; lia.
Qed.

Lemma step_indices c this :
  indices_in_range this -> count_nonneg c ->
  indices_in_range (snd (step c this)) /\
  capacity (snd (step c this)) = capacity this.
Proof.
  intros Hin Hc. destruct c as [inputData|outputData count]; simpl.
  - pose proof (write_indices inputData this Hin) as (H1 & H2 & _).
    by destruct (write inputData this) as [[[]|e] this'].
  - pose proof (read_indices count this outputData Hin Hc) as (H1 & H2 & _).
    by destruct (read count (this, outputData)) as [[[]|e] [this' out']].
Qed.

Lemma run_indices cs this :
  indices_in_range this -> Forall count_nonneg cs ->
  indices_in_range (snd (run cs this)) /\
  capacity (snd (run cs this)) = capacity this.
Proof.
  intros Hin Hcs. revert this Hin.
  induction Hcs as [|c cs Hc Hcs IH]; intros this Hin; simpl; [done|].
  pose proof (step_indices c this Hin Hc) as [H1 H2].
  destruct (step c this) as [es this'].
  specialize (IH this' H1). destruct (run cs this') as [es' this'']. simpl in *.
  split; [tauto|]. destruct IH as [_ ->]. done.
Qed.

Lemma new_indices capacity channelCount this :
  new capacity channelCount = Return this ->
  0 < capacity < 2 ^ 31 ->
  indices_in_range this /\ RingBuffer.capacity this = capacity.
Proof.
  unfold new. destruct (capacity * channelCount <? 0); [done|].
  intros [= <-]. unfold indices_in_range. simpl. lia.
Qed.

(** C9, as the code has it.  [write] is all-or-nothing: when fewer than
    [inputLen + 1] slots are free it returns [false] and leaves the write
    index, the read index and the storage as they were, whatever the state
    of the ring.  On a ring whose capacity is a positive int32, after any
    sequence of writes and of reads with a count that is not negative,
    [0 <= available() <= capacity - 1].  Neither condition can be dropped,
    as the runs after the theorem show. *)
Theorem write_all_or_nothing_and_fill_bound (this : AudioRingBuffer)
    inputData chan0 capacity channelCount fresh cs :
  inputData !! 0%nat = Some chan0 ->
  availableSpace this < Z.of_nat (length chan0) + 1 ->
  new capacity channelCount = Return fresh ->
  0 < capacity < 2 ^ 31 ->
  Forall count_nonneg cs ->
  write inputData this = (Return false, this) /\
  0 <= available (snd (run cs fresh)) <= capacity - 1.
Proof.
  intros H0 Hfull Hnew Hcap Hcs. split; [by eapply write_refuses|].
  destruct (new_indices capacity channelCount fresh Hnew Hcap) as [Hin Hc].
  pose proof (run_indices cs fresh Hin Hcs) as [H1 H2].
  pose proof (available_bounds _ H1). lia.
Qed.

Lemma write_all_or_nothing_and_fill_bound_on_small_rings :
  ([[1; 2]]%float !! 0%nat = Some [1; 2]%float /\
   availableSpace mono_ring_of_2 < Z.of_nat (length [1; 2]%float) + 1 /\
   new 4 1 = Return mono_ring_of_4 /\
   0 < 4 < 2 ^ 31 /\
   Forall count_nonneg
     [Write [[1; 2; 3]]%float; Read [[0; 0]]%float 2; Write [[4; 5]]%float]) /\
  (write [[1; 2]]%float mono_ring_of_2 = (Return false, mono_ring_of_2) /\
   0 <= available
          (snd (run [Write [[1; 2; 3]]%float; Read [[0; 0]]%float 2;
                     Write [[4; 5]]%float] mono_ring_of_4)) <= 4 - 1).
Proof.
  assert (Forall count_nonneg
            [Write [[1; 2; 3]]%float; Read [[0; 0]]%float 2; Write [[4; 5]]%float])
    as Hcs by (repeat constructor; simpl; lia).
  split; [split; [reflexivity|split; [reflexivity|split; [reflexivity|split; [lia|exact Hcs]]]]|].
  apply (write_all_or_nothing_and_fill_bound mono_ring_of_2 [[1; 2]]%float
           [1; 2]%float 4 1 mono_ring_of_4 _ eq_refl);
    [reflexivity|reflexivity|lia|exact Hcs].
Defined.

(** [read] has no sign check.  After three samples are written to a ring
    of capacity 4, [read(out, -3)] is accepted and stores -3 as the read
    index: [available()] is then 6.  And a ring of capacity 0 has
    [available() = 0], which is more than [capacity - 1]. *)
Lemma a_negative_count_breaks_the_fill_bound :
  (new 4 1 = Return mono_ring_of_4 /\
   fst (run [Write [[1; 2; 3]]%float; Read [[0; 0; 0]]%float (-3)] mono_ring_of_4)
   = [Submitted [[1; 2; 3]]%float; Delivered [[]]] /\
   available
     (snd (run [Write [[1; 2; 3]]%float; Read [[0; 0; 0]]%float (-3)]
             mono_ring_of_4)) = 6 /\
   ~ (0 <= available
             (snd (run [Write [[1; 2; 3]]%float; Read [[0; 0; 0]]%float (-3)]
                     mono_ring_of_4)) <= 4 - 1)) /\
  (exists empty, new 0 1 = Return empty /\
                 ~ (0 <= available (snd (run [] empty)) <= 0 - 1)).
Proof.
  split.
  - split; [reflexivity|]. split; [reflexivity|]. split; [reflexivity|].
    vm_compute. intros [_ H]. by apply H.
  - eexists. split; [reflexivity|]. vm_compute. intros [_ H]. by apply H.
Qed.

(** FIFO *)

Lemma slot_index_inj cc p c p' c' :
  0 <= c < cc -> 0 <= c' < cc -> 0 <= p -> 0 <= p' ->
  p * cc + c = p' * cc + c' -> p = p' /\ c = c'.
Proof.
  intros Hc Hc' Hp Hp' Heq.
  assert (p = p') as ->.
  { destruct (Z.lt_trichotomy p p') as [Hlt|[->|Hgt]]; [|done|].
    - assert (cc * 1 <= cc * (p' - p)) by (apply Z.mul_le_mono_nonneg_l; lia). lia.
    - assert (cc * 1 <= cc * (p - p')) by (apply Z.mul_le_mono_nonneg_l; lia). lia. }
  split; [done|lia].
Qed.

Lemma slot_index_bound cap cc p c :
  0 <= c < cc -> 0 <= p < cap -> 0 <= p * cc + c < cap * cc.
Proof. intros. nia. Qed.

Lemma put_ok inputData pos i ch this :
  ring_ok this -> ring_ok (put inputData pos i ch this) /\
  same_header this (put inputData pos i ch this).
Proof.
  intros (Hin & Hcc & Hlen). unfold put, ring_ok, same_header, indices_in_range, Js.typed_set in *.
  simpl. destruct (_ <? 0); simpl; rewrite ?length_insert; tauto.
Qed.

Lemma sample_at_put inputData pos i ch this p c :
  ring_ok this ->
  0 <= pos < capacity this -> 0 <= ch < channelCount this ->
  0 <= p < capacity this -> 0 <= c < channelCount this ->
  sample_at (put inputData pos i ch this) p c =
  if decide (p = pos /\ c = ch) then input_sample inputData ch i
  else sample_at this p c.
Proof.
  intros (Hin & Hcc & Hlen) Hpos Hch Hp Hc.
  unfold sample_at, put, Js.typed_set, Js.typed_get. simpl.
  pose proof (slot_index_bound _ _ _ _ Hch Hpos) as Hb1.
  pose proof (slot_index_bound _ _ _ _ Hc Hp) as Hb2.
  destruct (Z.ltb_spec (pos * channelCount this + ch) 0); [lia|].
  destruct (Z.ltb_spec (p * channelCount this + c) 0); [lia|].
  destruct (decide (p = pos /\ c = ch)) as [[-> ->]|Hne].
  - rewrite list_lookup_insert_eq by lia. done.
  - rewrite list_lookup_insert_ne; [done|].
    intros Heq. apply Hne.
    apply (slot_index_inj (channelCount this)); lia.
Qed.

Lemma same_header_refl this : same_header this this.
Proof. by repeat split. Qed.

Lemma same_header_trans a b c : same_header a b -> same_header b c -> same_header a c.
Proof. unfold same_header. intuition congruence. Qed.

Lemma put_frame_spec inputData pos i k this :
  ring_ok this -> 0 <= pos < capacity this ->
  Z.of_nat k <= channelCount this ->
  ring_ok (put_frame inputData pos i k this) /\
  same_header this (put_frame inputData pos i k this) /\
  forall p c, 0 <= p < capacity this -> 0 <= c < channelCount this ->
    sample_at (put_frame inputData pos i k this) p c =
    if decide (p = pos /\ c < Z.of_nat k) then input_sample inputData c i
    else sample_at this p c.
Proof.
  intros Hok Hpos. unfold put_frame. induction k as [|k IH]; intros Hk.
  - simpl. split; [done|]. split; [apply same_header_refl|].
    intros p c _ Hc. destruct (decide _) as [[_ ?]|]; [lia|done].
  - rewrite seq_S, foldl_app. simpl.
    destruct IH as (Hok' & Hh & Hs); [lia|].
    set (s := foldl _ this (seq 0 k)) in *.
    destruct (put_ok inputData pos i (Z.of_nat k) s Hok') as [Hok'' Hh'].
    split; [done|]. split; [by eapply same_header_trans|].
    intros p c Hp Hc.
    destruct Hh as (Hcap & Hcc & _).
    rewrite sample_at_put; [|done|lia..].
    rewrite Hs by done.
    repeat destruct (decide _); try done; try lia.
    by destruct a as [_ ->].
Qed.

Lemma mod_offsets_differ cap a i j :
  0 < cap -> 0 <= i < j -> j < i + cap ->
  (a + i) mod cap <> (a + j) mod cap.
Proof.
  intros Hcap Hij Hj Heq.
  assert ((j - i) mod cap = 0) as H0.
  { replace (j - i) with ((a + j) - (a + i)) by lia.
    rewrite Zminus_mod, Heq, Z.sub_diag. by apply Z.mod_0_l; lia. }
  rewrite Z.mod_small in H0; lia.
Qed.

Lemma put_block_spec inputData w n this :
  ring_ok this -> 0 <= w ->
  Z.of_nat n <= capacity this ->
  let s := put_block inputData w (capacity this) (channelCount this) n this in
  ring_ok s /\ same_header this s /\
  (forall i c, (i < n)%nat -> 0 <= c < channelCount this ->
     sample_at s ((w + Z.of_nat i) mod capacity this) c =
     input_sample inputData c (Z.of_nat i)) /\
  (forall p c, 0 <= p < capacity this -> 0 <= c < channelCount this ->
     (forall i, (i < n)%nat -> (w + Z.of_nat i) mod capacity this <> p) ->
     sample_at s p c = sample_at this p c).
Proof.
  intros Hok Hw. unfold put_block. induction n as [|n IH]; intros Hn.
  - simpl. split; [done|]. split; [apply same_header_refl|].
    split; [intros; lia|done].
  - rewrite seq_S, foldl_app. simpl.
    destruct IH as (Hok' & Hh & Hhit & Hmiss); [lia|].
    set (s := foldl _ this (seq 0 n)) in *.
    pose proof Hh as (Hcap & Hcc & _).
    assert (0 < capacity this) as Hcpos by (destruct Hok as [[? _] _]; lia).
    pose proof (Z.mod_pos_bound (w + Z.of_nat n) (capacity this) Hcpos) as Hpos.
    destruct (put_frame_spec inputData ((w + Z.of_nat n) mod capacity this)
                (Z.of_nat n) (Z.to_nat (channelCount this)) s Hok')
      as (Hok'' & Hh' & Hs); [lia | destruct Hok as (_ & ? & _); lia |].
    split; [done|]. split; [by eapply same_header_trans|].
    assert (forall c, 0 <= c < channelCount this -> c < Z.of_nat (Z.to_nat (channelCount this)))
      as Hlt by (intros; lia).
    split.
    + intros i c Hi Hc.
      rewrite Hs by (rewrite ?Hcap, ?Hcc; try lia; apply Z.mod_pos_bound; lia).
      destruct (decide _) as [[Heq _]|Hne].
      * destruct (decide (i = n)) as [->|Hin]; [done|].
        exfalso. revert Heq. apply mod_offsets_differ; lia.
      * destruct (decide (i = n)) as [->|Hin].
        -- exfalso. apply Hne. split; [done|]. by apply Hlt.
        -- apply Hhit; [lia|done].
    + intros p c Hp Hc Hfree.
      rewrite Hs by (rewrite ?Hcap, ?Hcc; lia).
      destruct (decide _) as [[Heq _]|Hne].
      * exfalso. apply (Hfree n); [lia|done].
      * apply Hmiss; [done..|]. intros i Hi. apply Hfree. lia.
Qed.

Lemma rem_in_range x cap :
  0 < cap -> 0 <= x -> Js.rem x cap = Some (x mod cap).
Proof.
  intros Hc Hx. unfold Js.rem.
  destruct (Z.eqb_spec cap 0); [lia|]. by rewrite Z.rem_mod_nonneg by lia.
Qed.

Lemma store_sample_put inputData pos i (ch : nat) this :
  is_Some (inputData !! ch) ->
  store_sample inputData (Some pos) i (Z.of_nat ch) this =
  (Return tt, put inputData pos i (Z.of_nat ch) this).
Proof.
  intros [c Hc]. unfold store_sample, bind, Js.channel, put, input_sample, channel_of.
  destruct (Z.ltb_spec (Z.of_nat ch) 0); [lia|].
  rewrite Nat2Z.id, Hc. done.
Qed.

Lemma write_loop_pure inputData (n : nat) this :
  ring_ok this ->
  (forall ch : nat, Z.of_nat ch < channelCount this -> is_Some (inputData !! ch)) ->
  write_loop inputData (Z.of_nat n) this this =
  (Return tt,
   put_block inputData (writeIndex this) (capacity this) (channelCount this) n this).
Proof.
  intros Hok Hch. unfold write_loop, for_upto, put_block. rewrite Nat2Z.id.
  pose proof Hok as ((Hcap & Hw & Hr) & Hcc & Hlen).
  eapply (for_each_pure (fun s => ring_ok s /\ same_header this s)
            (fun i s => put_frame inputData ((writeIndex this + Z.of_nat i) mod capacity this)
                          (Z.of_nat i) (Z.to_nat (channelCount this)) s));
    [|split; [done|apply same_header_refl]].
  intros i s _ [Hs Hh].
  pose proof (Z.mod_pos_bound (writeIndex this + Z.of_nat i) (capacity this) ltac:(lia)) as Hpos.
  destruct (put_frame_spec inputData ((writeIndex this + Z.of_nat i) mod capacity this)
              (Z.of_nat i) (Z.to_nat (channelCount this)) s Hs)
    as (Hs' & Hh' & _).
  { destruct Hh as (-> & _). lia. }
  { destruct Hh as (_ & -> & _). lia. }
  split; [|split; [done|by eapply same_header_trans]].
  rewrite rem_in_range by lia. unfold put_frame.
  eapply (for_each_pure (fun _ => True)
            (fun ch s => put inputData ((writeIndex this + Z.of_nat i) mod capacity this)
                          (Z.of_nat i) (Z.of_nat ch) s)); [|done].
  intros ch s' Hin _. split; [|done].
  apply store_sample_put, Hch.
  apply elem_of_seq in Hin. lia.
Qed.

Lemma write_index_from_read this :
  indices_in_range this ->
  writeIndex this = (readIndex this + available this) mod capacity this.
Proof.
  unfold available, indices_in_range. intros (Hc & Hw & Hr).
  destruct (Z.geb_spec (writeIndex this) (readIndex this)).
  - rewrite Z.mod_small; lia.
  - replace (readIndex this + (capacity this - (readIndex this - writeIndex this)))
      with (writeIndex this + 1 * capacity this) by lia.
    rewrite Z.mod_add by lia. rewrite Z.mod_small; lia.
Qed.

Lemma samples_of_channel (c : list float) :
  (fun i : nat => Js.to_float32 (Js.typed_get c (Some (Z.of_nat i))))
    <$> seq 0 (length c) = c.
Proof.
  apply list_eq. intros i. rewrite list_lookup_fmap.
  destruct (decide (i < length c)%nat) as [Hlt|Hge].
  - rewrite lookup_seq_lt by done. simpl. unfold Js.typed_get.
    destruct (Z.ltb_spec (Z.of_nat i) 0); [lia|]. rewrite Nat2Z.id.
    destruct (lookup_lt_is_Some_2 c i Hlt) as [x Hx]. by rewrite Hx.
  - rewrite (lookup_ge_None_2 c) by lia.
    rewrite (lookup_ge_None_2 (seq 0 (length c))); [done|]. rewrite length_seq. lia.
Qed.

Lemma planar_channel n inputData (ch : nat) :
  planar n inputData -> Z.of_nat ch < n ->
  exists c, inputData !! ch = Some c /\
            channel_of ch inputData = c /\
            length c = length (channel_of 0 inputData).
Proof.
  intros [Hlen Hall] Hch.
  destruct (lookup_lt_is_Some_2 inputData ch ltac:(lia)) as [c Hc].
  exists c. split; [done|]. split; [unfold channel_of; by rewrite Hc|].
  by eapply (Forall_lookup_1 _ _ _ _ Hall).
Qed.

Lemma write_accepts inputData chan0 this :
  ring_ok this -> planar (channelCount this) inputData ->
  inputData !! 0%nat = Some chan0 ->
  Z.of_nat (length chan0) + 1 <= availableSpace this ->
  exists this',
    write inputData this = (Return true, this') /\
    ring_ok this' /\ channelCount this' = channelCount this /\
    capacity this' = capacity this /\
    available this' = available this + Z.of_nat (length chan0) /\
    forall ch : nat, Z.of_nat ch < channelCount this ->
      queued this' ch = queued this ch ++ channel_of ch inputData.
Proof.
  intros Hok Hpl H0 Hfree.
  pose proof Hok as (Hin & Hcc & Hlen).
  pose proof Hin as (Hcap & Hw & Hr).
  pose proof (available_bounds this Hin) as Hav.
  pose proof (availableSpace_available this Hin) as Hsp.
  set (n := length chan0) in *.
  rewrite write_unfold, H0. simpl. fold n.
  destruct (Z.ltb_spec (availableSpace this) (Z.of_nat n + 1)); [lia|].
  rewrite write_loop_pure; [|done|].
  2:{ intros ch Hch. destruct (planar_channel _ _ ch Hpl Hch) as (c & -> & _). by eexists. }
  destruct (put_block_spec inputData (writeIndex this) n this Hok) as (Hok1 & Hh1 & Hhit & Hmiss);
    [lia..|].
  set (s := put_block _ _ _ _ _ _) in *.
  destruct Hh1 as (Hc1 & Hcc1 & Hw1 & Hr1).
  destruct Hok1 as (Hin1 & Hcc1' & Hlen1).
  set (w' := (writeIndex this + Z.of_nat n) mod capacity this).
  pose proof (Z.mod_pos_bound (writeIndex this + Z.of_nat n) (capacity this) ltac:(lia)) as Hw'.
  eexists. split; [reflexivity|]. simpl.
  rewrite int32_of_rem by lia. fold w'.
  assert (w' = (readIndex this + (available this + Z.of_nat n)) mod capacity this) as Hw'eq.
  { unfold w'. rewrite (write_index_from_read this Hin) at 1.
    rewrite Zplus_mod_idemp_l. f_equal. lia. }
  assert (indices_in_range
            {| capacity := capacity s; channelCount := channelCount s;
               writeIndex := w'; readIndex := readIndex s; storage := storage s |}) as Hin'.
  { unfold indices_in_range. simpl. rewrite Hc1, Hr1. lia. }
  assert (available
            {| capacity := capacity s; channelCount := channelCount s;
               writeIndex := w'; readIndex := readIndex s; storage := storage s |}
          = available this + Z.of_nat n) as Hav'.
  { rewrite available_mod by done. simpl. rewrite Hc1, Hr1, Hw'eq.
    rewrite Zminus_mod_idemp_l.
    replace (readIndex this + (available this + Z.of_nat n) - readIndex this)
      with (available this + Z.of_nat n) by lia.
    apply Z.mod_small. lia. }
  split; [by split|]. split; [done|]. split; [done|]. split; [done|].
  intros ch Hch. unfold queued at 1. rewrite Hav'. simpl. rewrite Hc1, Hr1.
  replace (Z.to_nat (available this + Z.of_nat n))
    with (Z.to_nat (available this) + n)%nat by lia.
  rewrite seq_app, fmap_app. f_equal.
  - unfold queued. apply list_fmap_ext. intros k x Hk.
    apply lookup_seq in Hk as [-> Hk]. simpl.
    pose proof (Z.mod_pos_bound (readIndex this + Z.of_nat k) (capacity this) ltac:(lia)).
    transitivity (sample_at s ((readIndex this + Z.of_nat k) mod capacity this) (Z.of_nat ch));
      [done|].
    apply Hmiss; [lia..|].
    intros i Hi. rewrite (write_index_from_read this Hin), Zplus_mod_idemp_l.
    replace (readIndex this + available this + Z.of_nat i)
      with (readIndex this + (available this + Z.of_nat i)) by lia.
    apply not_eq_sym, mod_offsets_differ; lia.
  - destruct (planar_channel _ _ ch Hpl Hch) as (c & Hc & -> & Hclen).
    unfold channel_of in Hclen. rewrite H0 in Hclen. simpl in Hclen. fold n in Hclen.
    rewrite <- (samples_of_channel c) at 1. rewrite Hclen.
    rewrite Nat.add_0_l. rewrite <- (Nat.add_0_r (Z.to_nat (available this))) at 1.
    rewrite <- (fmap_add_seq (Z.to_nat (available this)) 0 n).
    rewrite <- list_fmap_compose. apply list_fmap_ext. intros i x Hi.
    apply lookup_seq in Hi as [-> Hi]. simpl.
    assert ((readIndex this + Z.of_nat (Z.to_nat (available this) + i)) mod capacity this
            = (writeIndex this + Z.of_nat i) mod capacity this) as ->.
    { rewrite (write_index_from_read this Hin), Zplus_mod_idemp_l. f_equal. lia. }
    transitivity (sample_at s ((writeIndex this + Z.of_nat i) mod capacity this) (Z.of_nat ch));
      [done|].
    rewrite Hhit by lia. unfold input_sample, channel_of.
    rewrite Nat2Z.id, Hc. done.
Qed.

(** The consumer side *)

Lemma load_sample_get_into p (i : nat) (ch : nat) (s : reader) :
  is_Some (snd s !! ch) ->
  load_sample (Some p) (Z.of_nat i) (Z.of_nat ch) s =
  (Return tt, get_into p (Z.of_nat i) ch s).
Proof.
  intros [c Hc]. unfold load_sample, bind, get, Js.channel, get_into, channel_of, sample_at.
  simpl. destruct (Z.ltb_spec (Z.of_nat ch) 0); [lia|].
  rewrite Nat2Z.id, Hc. simpl. unfold modify, Js.typed_set.
  destruct (Z.ltb_spec (Z.of_nat i) 0); [lia|]. done.
Qed.

Lemma get_frame_spec p i k (s : reader) :
  fst (get_frame p i k s) = fst s /\
  length (snd (get_frame p i k s)) = length (snd s) /\
  forall ch o, snd s !! ch = Some o ->
    snd (get_frame p i k s) !! ch =
    Some (if decide (ch < k)%nat
          then <[Z.to_nat i := sample_at (fst s) p (Z.of_nat ch)]> o else o).
Proof.
  unfold get_frame. induction k as [|k (IH1 & IH2 & IH3)].
  - simpl. repeat split. intros ch o Ho. destruct (decide (ch < 0)%nat); [lia|done].
  - rewrite seq_S, foldl_app. simpl.
    set (s' := foldl _ s (seq 0 k)) in *.
    unfold get_into. simpl. rewrite length_insert. fold s'.
    split; [done|]. split; [done|].
    intros ch o Ho. specialize (IH3 ch o Ho).
    destruct (decide (ch = k)) as [->|Hne].
    + rewrite list_lookup_insert_eq by (rewrite IH2; by eapply lookup_lt_Some).
      unfold channel_of. rewrite IH3, IH1.
      destruct (decide (k < k)%nat); [lia|]. destruct (decide (k < S k)%nat); [done|lia].
    + rewrite list_lookup_insert_ne by done. rewrite IH3.
      repeat destruct (decide _); try done; lia.
Qed.

Lemma get_block_spec r cap cc m (s : reader) :
  fst (get_block r cap cc m s) = fst s /\
  length (snd (get_block r cap cc m s)) = length (snd s) /\
  forall ch o, Z.of_nat ch < cc -> snd s !! ch = Some o ->
    exists o', snd (get_block r cap cc m s) !! ch = Some o' /\
      length o' = length o /\
      forall j, o' !! j =
        if decide (j < m /\ j < length o)%nat
        then Some (sample_at (fst s) ((r + Z.of_nat j) mod cap) (Z.of_nat ch))
        else o !! j.
Proof.
  unfold get_block. induction m as [|m (IH1 & IH2 & IH3)].
  - simpl. repeat split. intros ch o _ Ho. exists o. split; [done|]. split; [done|].
    intros j. destruct (decide (j < 0 /\ j < length o)%nat); [lia|done].
  - rewrite seq_S, foldl_app. simpl.
    set (s' := foldl _ s (seq 0 m)) in *.
    destruct (get_frame_spec ((r + Z.of_nat m) mod cap) (Z.of_nat m) (Z.to_nat cc) s')
      as (Hf1 & Hf2 & Hf3).
    split; [congruence|]. split; [congruence|].
    intros ch o Hch Ho. destruct (IH3 ch o Hch Ho) as (o1 & Ho1 & Hlen1 & Hj1).
    rewrite (Hf3 ch o1 Ho1). destruct (decide (ch < Z.to_nat cc)%nat); [|lia].
    eexists. split; [done|]. rewrite length_insert. split; [done|].
    intros j. rewrite list_lookup_insert, Hj1, Nat2Z.id, IH1, Hlen1.
    repeat destruct (decide _); try done; try lia.
    destruct a as [-> _]. done.
Qed.

Lemma read_loop_pure (m : nat) this outputData :
  indices_in_range this ->
  Z.of_nat (length outputData) = channelCount this ->
  read_loop (Z.of_nat m) this (this, outputData) =
  (Return tt,
   get_block (readIndex this) (capacity this) (channelCount this) m (this, outputData)).
Proof.
  intros (Hcap & Hw & Hr) Hlen. unfold read_loop, for_upto, get_block. rewrite Nat2Z.id.
  set (P := fun s : reader => length (snd s) = length outputData).
  eapply (for_each_pure P
            (fun i s => get_frame ((readIndex this + Z.of_nat i) mod capacity this)
                          (Z.of_nat i) (Z.to_nat (channelCount this)) s)); [|done].
  intros i s _ Hs. split.
  - rewrite rem_in_range by lia. unfold get_frame.
    eapply (for_each_pure P
              (fun ch s => get_into ((readIndex this + Z.of_nat i) mod capacity this)
                            (Z.of_nat i) ch s)); [|done].
    intros ch s' Hin Hs'. split.
    + apply load_sample_get_into. apply lookup_lt_is_Some_2.
      apply elem_of_seq in Hin. rewrite Hs'. lia.
    + unfold P, get_into. simpl. by rewrite length_insert.
  - unfold P.
    destruct (get_frame_spec ((readIndex this + Z.of_nat i) mod capacity this)
                (Z.of_nat i) (Z.to_nat (channelCount this)) s) as (_ & -> & _). done.
Qed.

Lemma read_accepts count this outputData :
  ring_ok this -> 0 <= count <= available this ->
  Z.of_nat (length outputData) = channelCount this ->
  Forall (fun c => count <= Z.of_nat (length c)) outputData ->
  exists this' out',
    read count (this, outputData) = (Return true, (this', out')) /\
    ring_ok this' /\ channelCount this' = channelCount this /\
    capacity this' = capacity this /\
    forall ch : nat, Z.of_nat ch < channelCount this ->
      channel_of ch (take (Z.to_nat count) <$> out') = take (Z.to_nat count) (queued this ch) /\
      queued this' ch = drop (Z.to_nat count) (queued this ch).
Proof.
  intros Hok Hcount Hlen Hroom.
  pose proof Hok as (Hin & Hcc & Hst).
  pose proof Hin as (Hcap & Hw & Hr).
  pose proof (available_bounds this Hin) as Hav.
  rewrite read_unfold.
  destruct (Z.ltb_spec (available this) count); [lia|].
  replace (read_loop count this) with (read_loop (Z.of_nat (Z.to_nat count)) this)
    by (rewrite Z2Nat.id; [done|lia]).
  rewrite read_loop_pure by done.
  set (m := Z.to_nat count).
  destruct (get_block_spec (readIndex this) (capacity this) (channelCount this) m
              (this, outputData)) as (Hg1 & Hg2 & Hg3).
  destruct (get_block _ _ _ _ _) as [this1 out1]. simpl in *. subst this1.
  set (r' := (readIndex this + count) mod capacity this).
  pose proof (Z.mod_pos_bound (readIndex this + count) (capacity this) ltac:(lia)) as Hr'.
  eexists _, _. split; [reflexivity|]. simpl.
  rewrite int32_of_rem by lia. fold r'.
  set (this' := {| capacity := capacity this; channelCount := channelCount this;
                   writeIndex := writeIndex this; readIndex := r';
                   storage := storage this |}).
  assert (indices_in_range this') as Hin' by (unfold indices_in_range; simpl; lia).
  assert (available this' = available this - count) as Hav'.
  { rewrite available_mod by done. simpl. unfold r'.
    rewrite (write_index_from_read this Hin) at 1.
    rewrite <- Zminus_mod.
    replace (readIndex this + available this - (readIndex this + count))
      with (available this - count) by lia.
    apply Z.mod_small. lia. }
  split; [by split|]. split; [done|]. split; [done|].
  intros ch Hch.
  destruct (lookup_lt_is_Some_2 outputData ch ltac:(lia)) as [o Ho].
  destruct (Hg3 ch o Hch Ho) as (o' & Ho' & Hlen' & Hj).
  assert (m <= length o)%nat as Hm.
  { pose proof (Forall_lookup_1 _ _ _ _ Hroom Ho) as Ho1. simpl in Ho1. lia. }
  split.
  - unfold channel_of. rewrite list_lookup_fmap, Ho'. simpl.
    unfold queued. rewrite <- fmap_take, take_seq.
    replace (m `min` Z.to_nat (available this))%nat with m by lia.
    apply list_eq. intros j. rewrite lookup_take, list_lookup_fmap, Hj.
    destruct (decide (j < m)%nat) as [Hlt|Hge].
    + rewrite lookup_seq_lt by done. simpl.
      destruct (decide _); [done|lia].
    + by rewrite (lookup_ge_None_2 (seq 0 m)) by (rewrite length_seq; lia).
  - unfold queued. rewrite Hav'. simpl. rewrite <- fmap_drop, drop_seq.
    rewrite (Nat.add_comm 0 m).
    replace (Z.to_nat (available this) - m)%nat
      with (Z.to_nat (available this - count)) by lia.
    rewrite <- (fmap_add_seq m 0). rewrite <- list_fmap_compose.
    apply list_fmap_ext. intros _ k _. simpl.
    assert ((r' + Z.of_nat k) mod capacity this
            = (readIndex this + Z.of_nat (m + k)) mod capacity this) as ->; [|done].
    unfold r'. rewrite Zplus_mod_idemp_l. f_equal. lia.
Qed.

Lemma read_refuses count this outputData :
  available this < count ->
  read count (this, outputData) = (Return false, (this, outputData)).
Proof.
  intros Hlt. rewrite read_unfold.
  destruct (Z.ltb_spec (available this) count); [done|lia].
Qed.

Lemma step_fifo c this :
  ring_ok this -> well_formed_call (channelCount this) c ->
  ring_ok (snd (step c this)) /\
  channelCount (snd (step c this)) = channelCount this /\
  capacity (snd (step c this)) = capacity this /\
  forall ch : nat, Z.of_nat ch < channelCount this ->
    queued this ch ++ submitted ch (fst (step c this)) =
    delivered ch (fst (step c this)) ++ queued (snd (step c this)) ch.
Proof.
  intros Hok Hc. pose proof Hok as (Hin & Hcc & Hst).
  destruct c as [inputData|outputData count]; simpl in *.
  - destruct (inputData !! 0%nat) as [chan0|] eqn:H0.
    + destruct (Z.lt_ge_cases (availableSpace this) (Z.of_nat (length chan0) + 1)).
      * rewrite (write_refuses _ _ _ H0) by done. simpl.
        split; [done|]. split; [done|]. split; [done|]. intros ch _. by rewrite app_nil_r.
      * destruct (write_accepts inputData chan0 this Hok Hc H0 ltac:(lia))
          as (this' & -> & Hok' & Hcc' & Hcap' & _ & Hq).
        simpl. split; [done|]. split; [done|]. split; [done|].
        intros ch Hch. rewrite (Hq ch Hch). unfold submitted. simpl.
        by rewrite app_nil_r.
    + rewrite write_unfold, H0. simpl.
      split; [done|]. split; [done|]. split; [done|]. intros ch _. by rewrite app_nil_r.
  - destruct Hc as (Hcount & Hlen & Hroom).
    destruct (Z.lt_ge_cases (available this) count).
    + rewrite read_refuses by done. simpl.
      split; [done|]. split; [done|]. split; [done|]. intros ch _. by rewrite app_nil_r.
    + destruct (read_accepts count this outputData Hok ltac:(lia) Hlen Hroom)
        as (this' & out' & -> & Hok' & Hcc' & Hcap' & Hq).
      simpl. split; [done|]. split; [done|]. split; [done|].
      intros ch Hch. destruct (Hq ch Hch) as [Hd Hq'].
      unfold delivered. simpl. rewrite app_nil_r, Hd, Hq'.
      by rewrite app_nil_r, take_drop.
Qed.

Lemma run_fifo cs this :
  ring_ok this -> Forall (well_formed_call (channelCount this)) cs ->
  ring_ok (snd (run cs this)) /\
  forall ch : nat, Z.of_nat ch < channelCount this ->
    queued this ch ++ submitted ch (fst (run cs this)) =
    delivered ch (fst (run cs this)) ++ queued (snd (run cs this)) ch.
Proof.
  intros Hok Hcs. revert this Hok Hcs.
  induction cs as [|c cs IH]; intros this Hok Hcs; simpl.
  - split; [done|]. intros ch _. by rewrite app_nil_r.
  - apply Forall_cons in Hcs as [Hc Hcs].
    destruct (step_fifo c this Hok Hc) as (Hok1 & Hcc1 & _ & Hq1).
    destruct (step c this) as [es this1]. simpl in *.
    rewrite <- Hcc1 in Hcs.
    destruct (IH this1 Hok1 Hcs) as (Hok2 & Hq2).
    destruct (run cs this1) as [es' this2]. simpl in *.
    split; [done|]. intros ch Hch.
    unfold submitted, delivered in *.
    rewrite !omap_app, !concat_app.
    rewrite app_assoc, (Hq1 ch Hch), <- !app_assoc. f_equal.
    apply Hq2. by rewrite Hcc1.
Qed.

Lemma new_ring_ok capacity channelCount this :
  new capacity channelCount = Return this ->
  0 < capacity < 2 ^ 31 -> 0 <= channelCount ->
  ring_ok this /\ RingBuffer.channelCount this = channelCount /\
  forall ch, queued this ch = [].
Proof.
  intros Hnew Hcap Hcc.
  destruct (new_indices capacity channelCount this Hnew Hcap) as [Hin _].
  unfold new in Hnew. destruct (capacity * channelCount <? 0); [done|].
  injection Hnew as <-.
  split; [split; [done|]|done].
  simpl. split; [done|]. rewrite length_replicate. nia.
Qed.

Lemma queued_length this ch :
  Z.of_nat (length (queued this ch)) = Z.max 0 (available this).
Proof. unfold queued. rewrite length_fmap, length_seq. lia. Qed.

Lemma run_header cs this :
  ring_ok this -> Forall (well_formed_call (channelCount this)) cs ->
  channelCount (snd (run cs this)) = channelCount this /\
  capacity (snd (run cs this)) = capacity this.
Proof.
  intros Hok Hcs. revert this Hok Hcs.
  induction cs as [|c cs IH]; intros this Hok Hcs; simpl; [done|].
  apply Forall_cons in Hcs as [Hc Hcs].
  destruct (step_fifo c this Hok Hc) as (Hok1 & Hcc1 & Hcap1 & _).
  destruct (step c this) as [es this1]. simpl in *.
  rewrite <- Hcc1 in Hcs. destruct (IH this1 Hok1 Hcs) as [Hcc2 Hcap2].
  destruct (run cs this1) as [es' this2]. simpl in *.
  split; congruence.
Qed.

Lemma queued_all this ch :
  ring_ok this ->
  take (Z.to_nat (available this)) (queued this ch) = queued this ch.
Proof.
  intros Hok. apply take_ge.
  pose proof (queued_length this ch). pose proof (available_bounds this (proj1 Hok)).
  lia.
Qed.

Lemma available_of_queued this ch :
  ring_ok this -> available this = Z.of_nat (length (queued this ch)).
Proof.
  intros Hok. pose proof (queued_length this ch).
  pose proof (available_bounds this (proj1 Hok)). lia.
Qed.

(** C10, as the code has it.  The ring is a FIFO.  On a new ring whose
    capacity is a positive int32, over any sequence of well-formed calls
    (blocks with one array per channel, all of one length; counts that are
    not negative; output arrays, one per channel, that hold [count]
    samples):
    - the samples of a channel delivered by the successful reads are, in
      order, a prefix of the samples of that channel submitted by the
      successful writes; what is missing is what the ring still holds, so
      once the ring is drained the two sequences are equal;
    - a read of no more than [available()] samples succeeds: it returns
      [true], delivers the next [count] pending samples of the channel,
      and lowers [available()] by [count];
    - a write that leaves one slot free succeeds, and reading all that the
      ring then holds delivers what was pending followed by the block just
      written, unchanged, and empties the ring.
    A count below zero is outside this: the run after the theorem shows
    what [read] does with one. *)
Theorem ring_buffer_fifo capacity channelCount fresh cs (ch : nat) :
  new capacity channelCount = Return fresh ->
  0 < capacity < 2 ^ 31 ->
  Z.of_nat ch < channelCount ->
  Forall (well_formed_call channelCount) cs ->
  let '(es, this') := run cs fresh in
  exists pending,
    submitted ch es = delivered ch es ++ pending /\
    Z.of_nat (length pending) = available this' /\
    (available this' = 0 -> delivered ch es = submitted ch es) /\
    (forall outputData count,
       well_formed_call channelCount (Read outputData count) ->
       count <= available this' ->
       exists this'' out',
         read count (this', outputData) = (Return true, (this'', out')) /\
         channel_of ch (take (Z.to_nat count) <$> out')
         = take (Z.to_nat count) pending /\
         available this'' = available this' - count) /\
    (forall inputData outputData,
       let total :=
         available this' + Z.of_nat (length (channel_of 0 inputData)) in
       well_formed_call channelCount (Write inputData) ->
       total <= capacity - 1 ->
       well_formed_call channelCount (Read outputData total) ->
       exists this1 this2 out',
         write inputData this' = (Return true, this1) /\
         read total (this1, outputData) = (Return true, (this2, out')) /\
         channel_of ch (take (Z.to_nat total) <$> out')
         = pending ++ channel_of ch inputData /\
         available this2 = 0).
Proof.
  intros Hnew Hcap Hch Hcs.
  destruct (new_ring_ok capacity channelCount fresh Hnew Hcap ltac:(lia))
    as (Hok & Hcc & Hq0).
  destruct (new_indices capacity channelCount fresh Hnew Hcap) as [_ Hcap0].
  rewrite <- Hcc in Hcs, Hch.
  destruct (run_fifo cs _ Hok Hcs) as [Hok' Hq]. specialize (Hq ch Hch).
  destruct (run_header cs _ Hok Hcs) as [Hcc' Hcap'].
  rewrite Hq0 in Hq. simpl in Hq.
  destruct (run cs fresh) as [es this']. simpl in *.
  exists (queued this' ch). split; [done|].
  pose proof (queued_length this' ch) as Hl.
  pose proof (available_bounds this' (proj1 Hok')) as Hb.
  split; [lia|]. split; [|split].
  - intros H0. rewrite H0 in Hl.
    destruct (queued this' ch); [|simpl in Hl; lia].
    by rewrite app_nil_r in Hq.
  - intros outputData count (Hcount & Hlen & Hroom) Hle.
    destruct (read_accepts count this' outputData Hok' ltac:(lia)
                ltac:(congruence) Hroom)
      as (this'' & out' & Hread & Hok'' & Hcc'' & _ & Hd).
    destruct (Hd ch ltac:(congruence)) as [Hdel Hrest].
    exists this'', out'. split; [done|]. split; [done|].
    rewrite (available_of_queued this'' ch Hok''), Hrest, length_drop. lia.
  - intros inputData outputData Hpl Hfit (Htotal & Hlen & Hroom).
    simpl in Hpl.
    destruct (planar_channel channelCount inputData 0 Hpl ltac:(simpl; lia))
      as (chan0 & H0 & Hchan0 & _).
    rewrite Hchan0 in *.
    destruct (write_accepts inputData chan0 this' Hok' ltac:(congruence) H0)
      as (this1 & Hwrite & Hok1 & Hcc1 & Hcap1 & Hav1 & Hq1).
    { rewrite availableSpace_available by apply Hok'. lia. }
    destruct (read_accepts (available this' + Z.of_nat (length chan0)) this1
                outputData Hok1 ltac:(lia) ltac:(congruence) Hroom)
      as (this2 & out' & Hread & Hok2 & _ & _ & Hd).
    destruct (Hd ch ltac:(congruence)) as [Hdel Hrest].
    exists this1, this2, out'. split; [done|]. split; [done|].
    rewrite <- Hav1 in Hdel, Hrest.
    rewrite queued_all in Hdel by done.
    rewrite (Hq1 ch ltac:(congruence)) in Hdel. rewrite <- Hav1.
    split; [done|].
    rewrite (available_of_queued this2 ch Hok2), Hrest, length_drop.
    pose proof (queued_length this1 ch).
    pose proof (available_bounds this1 (proj1 Hok1)). lia.
Qed.

Lemma ring_buffer_fifo_on_a_stereo_ring :
  (new 4 2 = Return stereo_ring_of_4 /\ 0 < 4 < 2 ^ 31 /\ Z.of_nat 1 < 2 /\
   Forall (well_formed_call 2)
     [Write [[1; 2]; [10; 20]]%float; Read [[0; 0]; [0; 0]]%float 1;
      Write [[3]; [30]]%float; Read [[0; 0]; [0; 0]]%float 2]) /\
  (let '(es, this') :=
     run [Write [[1; 2]; [10; 20]]%float; Read [[0; 0]; [0; 0]]%float 1;
          Write [[3]; [30]]%float; Read [[0; 0]; [0; 0]]%float 2]
       stereo_ring_of_4 in
   exists pending,
     submitted 1 es = delivered 1 es ++ pending /\
     Z.of_nat (length pending) = available this' /\
     (available this' = 0 -> delivered 1 es = submitted 1 es) /\
     (forall outputData count,
        well_formed_call 2 (Read outputData count) ->
        count <= available this' ->
        exists this'' out',
          read count (this', outputData) = (Return true, (this'', out')) /\
          channel_of 1 (take (Z.to_nat count) <$> out')
          = take (Z.to_nat count) pending /\
          available this'' = available this' - count) /\
     (forall inputData outputData,
        let total :=
          available this' + Z.of_nat (length (channel_of 0 inputData)) in
        well_formed_call 2 (Write inputData) ->
        total <= 4 - 1 ->
        well_formed_call 2 (Read outputData total) ->
        exists this1 this2 out',
          write inputData this' = (Return true, this1) /\
          read total (this1, outputData) = (Return true, (this2, out')) /\
          channel_of 1 (take (Z.to_nat total) <$> out')
          = pending ++ channel_of 1 inputData /\
          available this2 = 0)).
Proof.
  assert (Forall (well_formed_call 2)
            [Write [[1; 2]; [10; 20]]%float; Read [[0; 0]; [0; 0]]%float 1;
             Write [[3]; [30]]%float; Read [[0; 0]; [0; 0]]%float 2]) as Hcs.
  { repeat (apply Forall_cons; split); try apply Forall_nil;
      unfold well_formed_call, planar; simpl;
      repeat split; try lia; repeat constructor; simpl; lia. }
  split; [split; [reflexivity|split; [lia|split; [lia|exact Hcs]]]|].
  apply (ring_buffer_fifo 4 2 stereo_ring_of_4 _ 1%nat);
    [reflexivity|lia|lia|exact Hcs].
Defined.

(** A write of two frames to a new stereo ring, then a read of two: the
    second channel comes back as it was written. *)
Lemma a_round_trip_on_a_stereo_ring :
  fst (run [Write [[1; 2]; [10; 20]]%float; Read [[0; 0]; [0; 0]]%float 2]
         stereo_ring_of_4)
  = [Submitted [[1; 2]; [10; 20]]%float; Delivered [[1; 2]; [10; 20]]%float].
Proof. reflexivity. Qed.

(** [read] has no sign check: a count of -1 is no more than [available()],
    so the read is accepted, and it moves the read index to -1.  The next
    read, of the one sample that [available()] then reports, delivers a NaN
    that nobody submitted. *)
Lemma a_negative_count_delivers_a_sample_nobody_wrote :
  new 4 1 = Return mono_ring_of_4 /\
  -1 <= available mono_ring_of_4 /\
  fst (read (-1) (mono_ring_of_4, [[0]]%float)) = Return true /\
  1 <= available (snd (run [Read [[0]]%float (-1)] mono_ring_of_4)) /\
  submitted 0 (fst (run [Read [[0]]%float (-1); Read [[0]]%float 1]
                      mono_ring_of_4)) = [] /\
  delivered 0 (fst (run [Read [[0]]%float (-1); Read [[0]]%float 1]
                      mono_ring_of_4)) = [nan].
Proof.
  split; [reflexivity|]. split; [by vm_compute|]. split; [reflexivity|].
  split; [by vm_compute|]. split; reflexivity.
Qed.

(** ** What one call does to the ring *)

Lemma available_after_read this count :
  indices_in_range this -> 0 <= count <= available this ->
  (writeIndex this - (readIndex this + count) mod capacity this) mod capacity this
  = available this - count.
Proof.
  intros Hin Hcount. pose proof (available_bounds this Hin) as Hb.
  pose proof Hin as (Hcap & _ & _).
  rewrite Zminus_mod_idemp_r.
  replace (writeIndex this - (readIndex this + count))
    with (writeIndex this - readIndex this - count) by lia.
  rewrite <- Zminus_mod_idemp_l, <- available_mod by done.
  apply Z.mod_small. lia.
Qed.


(** X1.  [read] is all-or-nothing.  On a ring with one output array per
    channel, each of at least [count] samples, [read] returns [true]
    exactly when [count <= available()].  When it returns [false] the ring
    and the output arrays are as they were; when it returns [true],
    [available()] has dropped by exactly [count], and neither the write
    index nor the storage has changed. *)
Theorem read_takes_count_or_nothing count this outputData :
  ring_ok this -> 0 <= count ->
  Z.of_nat (length outputData) = channelCount this ->
  Forall (fun c => count <= Z.of_nat (length c)) outputData ->
  exists this' out',
    read count (this, outputData)
    = (Return (bool_decide (count <= available this)), (this', out')) /\
    (available this < count -> this' = this /\ out' = outputData) /\
    (count <= available this ->
       available this' = available this - count /\
       writeIndex this' = writeIndex this /\
       storage this' = storage this).
Proof.
  intros Hok Hcount Hlen Hroom. pose proof Hok as (Hin & _ & _).
  destruct (Z.lt_ge_cases (available this) count) as [Hlt|Hge].
  - exists this, outputData. rewrite read_refuses by done.
    rewrite bool_decide_eq_false_2 by lia. split; [done|]. split; [done|lia].
  - destruct (read_accepts count this outputData Hok ltac:(lia) Hlen Hroom)
      as (this' & out' & Hread & Hok' & _ & Hcap' & _).
    exists this', out'. rewrite Hread, bool_decide_eq_true_2 by lia.
    split; [done|]. split; [lia|]. intros _.
    rewrite read_unfold in Hread.
    destruct (Z.ltb_spec (available this) count); [lia|].
    pose proof (read_loop_ring count this (this, outputData)) as Hl.
    destruct (read_loop count this (this, outputData)) as [[[]|e] [this1 out1]];
      simpl in *; [|done].
    subst this1. injection Hread as <- _.
    split; [|done].
    rewrite available_mod by apply Hok'. simpl.
    pose proof Hin as (Hc & _ & _).
    rewrite int32_of_rem by (unfold indices_in_range in Hin; lia).
    apply available_after_read; [done|lia].
Qed.

Lemma read_takes_count_or_nothing_on_a_stereo_ring :
  (ring_ok stereo_ring_of_4 /\ 0 <= 1 /\
   Z.of_nat (length [[0; 0]; [0; 0]]%float) = channelCount stereo_ring_of_4 /\
   Forall (fun c => 1 <= Z.of_nat (length c)) [[0; 0]; [0; 0]]%float) /\
  exists this' out',
    read 1 (stereo_ring_of_4, [[0; 0]; [0; 0]]%float)
    = (Return (bool_decide (1 <= available stereo_ring_of_4)), (this', out')) /\
    (available stereo_ring_of_4 < 1 ->
       this' = stereo_ring_of_4 /\ out' = [[0; 0]; [0; 0]]%float) /\
    (1 <= available stereo_ring_of_4 ->
       available this' = available stereo_ring_of_4 - 1 /\
       writeIndex this' = writeIndex stereo_ring_of_4 /\
       storage this' = storage stereo_ring_of_4).
Proof.
  assert (ring_ok stereo_ring_of_4) as Hok.
  { unfold ring_ok, indices_in_range. simpl. lia. }
  assert (Forall (fun c => 1 <= Z.of_nat (length c)) [[0; 0]; [0; 0]]%float)
    as Hroom by (repeat constructor; simpl; lia).
  split; [split; [exact Hok|split; [lia|split; [reflexivity|exact Hroom]]]|].
  apply (read_takes_count_or_nothing 1 stereo_ring_of_4 _ Hok);
    [lia|reflexivity|exact Hroom].
Defined.

(** X2.  [write] accepts exactly what fits, keeping one slot free.  On a
    ring handed one array per channel, all of one length [inputLen],
    [write] returns [true] exactly when
    [available() + inputLen <= capacity - 1]; [available()] then grows by
    exactly [inputLen], and otherwise stays as it was.  The read index is
    untouched either way. *)
Theorem write_accepts_exactly_what_fits inputData chan0 this :
  ring_ok this -> planar (channelCount this) inputData ->
  inputData !! 0%nat = Some chan0 ->
  exists this',
    write inputData this
    = (Return (bool_decide
                 (available this + Z.of_nat (length chan0) <= capacity this - 1)),
       this') /\
    readIndex this' = readIndex this /\
    available this'
    = if bool_decide (available this + Z.of_nat (length chan0) <= capacity this - 1)
      then available this + Z.of_nat (length chan0)
      else available this.
Proof.
  intros Hok Hpl H0. pose proof Hok as (Hin & _ & _).
  pose proof (availableSpace_available this Hin) as Hfree.
  pose proof (write_indices inputData this Hin) as (_ & _ & _ & Hr).
  destruct (Z.le_gt_cases (available this + Z.of_nat (length chan0))
              (capacity this - 1)) as [Hfit|Hfull].
  - destruct (write_accepts inputData chan0 this Hok Hpl H0 ltac:(lia))
      as (this' & Hw & _ & _ & _ & Hav & _).
    exists this'. rewrite Hw in *. rewrite bool_decide_eq_true_2 by done. done.
  - exists this. rewrite (write_refuses _ _ _ H0) by lia.
    rewrite bool_decide_eq_false_2 by lia. done.
Qed.

Lemma write_accepts_exactly_what_fits_on_a_stereo_ring :
  (ring_ok stereo_ring_of_4 /\
   planar (channelCount stereo_ring_of_4) [[1; 2]; [10; 20]]%float /\
   [[1; 2]; [10; 20]]%float !! 0%nat = Some [1; 2]%float) /\
  exists this',
    write [[1; 2]; [10; 20]]%float stereo_ring_of_4
    = (Return (bool_decide
                 (available stereo_ring_of_4 + Z.of_nat (length [1; 2]%float)
                  <= capacity stereo_ring_of_4 - 1)), this') /\
    readIndex this' = readIndex stereo_ring_of_4 /\
    available this'
    = if bool_decide
           (available stereo_ring_of_4 + Z.of_nat (length [1; 2]%float)
            <= capacity stereo_ring_of_4 - 1)
      then available stereo_ring_of_4 + Z.of_nat (length [1; 2]%float)
      else available stereo_ring_of_4.
Proof.
  assert (ring_ok stereo_ring_of_4) as Hok.
  { unfold ring_ok, indices_in_range. simpl. lia. }
  assert (planar (channelCount stereo_ring_of_4) [[1; 2]; [10; 20]]%float) as Hpl.
  { unfold planar. simpl. split; [lia|]. repeat constructor. }
  split; [split; [exact Hok|split; [exact Hpl|reflexivity]]|].
  apply (write_accepts_exactly_what_fits _ [1; 2]%float stereo_ring_of_4 Hok Hpl).
  reflexivity.
Defined.




(** X5.  Empty calls are accepted and change nothing.  On a ring whose
    indices are in range, writing a block of no samples returns [true] and
    reading zero samples returns [true]; the ring, and the output arrays,
    are exactly as before. *)
Theorem empty_calls_change_nothing inputData this outputData :
  indices_in_range this -> inputData !! 0%nat = Some [] ->
  write inputData this = (Return true, this) /\
  read 0 (this, outputData) = (Return true, (this, outputData)).
Proof.
  intros Hin H0. pose proof (available_bounds this Hin) as Hb.
  pose proof Hin as (Hcap & Hw & Hr). split.
  - rewrite write_unfold, H0. simpl.
    rewrite availableSpace_available by done.
    destruct (Z.ltb_spec (capacity this - available this) (Z.of_nat 0 + 1));
      [lia|].
    unfold write_loop, for_upto. change (Z.to_nat 0) with 0%nat. simpl.
    rewrite int32_of_rem by lia. rewrite Z.add_0_r, Z.mod_small by lia.
    by destruct this.
  - rewrite read_unfold.
    destruct (Z.ltb_spec (available this) 0); [lia|].
    unfold read_loop, for_upto. change (Z.to_nat 0) with 0%nat. simpl.
    rewrite int32_of_rem by lia. rewrite Z.add_0_r, Z.mod_small by lia.
    by destruct this.
Qed.

Lemma empty_calls_change_nothing_on_a_stereo_ring :
  (indices_in_range stereo_ring_of_4 /\
   ([[]; []] : list (list float)) !! 0%nat = Some []) /\
  write [[]; []] stereo_ring_of_4 = (Return true, stereo_ring_of_4) /\
  read 0 (stereo_ring_of_4, [[0]; [0]]%float)
  = (Return true, (stereo_ring_of_4, [[0]; [0]]%float)).
Proof.
  assert (indices_in_range stereo_ring_of_4) as Hin.
  { unfold indices_in_range. simpl. lia. }
  split; [split; [exact Hin|reflexivity]|].
  apply (empty_calls_change_nothing [[]; []] stereo_ring_of_4 _ Hin). reflexivity.
Defined.

End RingBufferFacts.

(** * wasm_exports.c and src/bindings.cpp *)

Module Bindings.

(** The JavaScript values that cross the embind boundary. *)
Inductive val : Type :=
  | undefined
  | null
  | Float32Array (samples : list float).

Definition jsArrayToFloatVector (js_array : val) : list float :=
  match js_array with
  | undefined | null => []
  | Float32Array samples => samples
  end.

Definition floatVectorToJsArray (vec : list float) : val :=
  match vec with
  | [] => undefined
  | _ => Float32Array vec
  end.

(** [std::vector::resize]: truncate, or pad with zeros. *)
Definition resize (n : Z) (vec : list float) : list float :=
  take (Z.to_nat n) vec ++ replicate (Z.to_nat n - length vec) 0%float.

(** *** A [std::vector<float>] sized by a product of two [int]s

    [int * int] is a 32-bit multiplication (a signed overflow wraps in the
    wasm code); the conversion of the product to [size_t] is modulo 2^32;
    and a vector of floats holds at most [max_size()] elements, on wasm32
    the largest [size_t] divided by [sizeof(float)]. *)
Definition int_times (a b : Z) : Z := Js.to_int32 (a * b).

Definition to_size_t (n : Z) : Z := n mod 2 ^ 32.

Definition max_size : Z := (2 ^ 32 - 1) / 4.

(** The capacity libc++ picks when a vector of capacity [cap] has to grow
    to [new_size] elements. *)
Definition recommend (cap new_size : Z) : Z :=
  if max_size / 2 <=? cap then max_size else Z.max (2 * cap) new_size.

Definition lift {S A} (r : outcome A) : M S A := fun s => (r, s).

(** *** SonicStreamWrapper: the fields

    [stream] is the opaque [sonicStream] pointer ([None] is [nullptr]);
    [speedProfile] is the flat buffer of (time, speed) pairs. *)
Record SonicStreamWrapper : Type := {
  stream : option positive;
  numChannels : Z;
  sampleRate : Z;
  speedProfile : list float
}.

Definition set_speedProfile (profile : list float) (this : SonicStreamWrapper)
  : SonicStreamWrapper :=
  {| stream := stream this; numChannels := numChannels this;
     sampleRate := sampleRate this; speedProfile := profile |}.

(** *** The methods bound to JavaScript, as calls and results *)

Inductive call : Type :=
  | WriteFloatToStream (input_buffer : val) (sample_count : Z)
  | WriteFloatToStreamPtr (memory : list float) (sample_count : Z)
  | ReadFloatFromStream (buffer_size : Z)
  | ReadFloatFromStreamPtr (memory : list float) (buffer_size : Z)
  | FlushStream
  | SetSpeed (rate : float)
  | GetSpeed
  | SetRate (rate : float)
  | EnableNonlinearSpeedup (nonlinear_factor : float)
  | SetDurationFeedbackStrength (factor : float)
  | SamplesAvailable
  | SetupSpeedCallback
  | GetSpeedProfile.

Inductive result : Type :=
  | Void
  | Int (n : Z)
  | Float (x : float)
  | Value (v : val)
  | IntAndMemory (n : Z) (memory : list float).

(** The calls of a trace aimed at one object, and what they returned. *)
Definition calls_of (x : positive) (t : list (positive * call)) : list call :=
  omap (fun e : positive * call =>
          if decide (fst e = x) then Some (snd e) else None) t.

Definition results_of (x : positive) (log : list (positive * outcome result))
  : list (outcome result) :=
  omap (fun e : positive * outcome result =>
          if decide (fst e = x) then Some (snd e) else None) log.

Section Engine.

(** The C API of sonic2.h and speedy.h.  A C function cannot raise: each
    one is a function of the pointee of the stream it is handed.  The
    functions that synthesise report the speed-callback invocations they
    make, as (time, speed) pairs in the order made. *)
Context {sonicStreamStruct speedyStreamStruct : Type}.

Variable sonicCreateStream : Z -> Z -> option sonicStreamStruct.
Variable sonicWriteFloatToStream :
  list float -> Z -> sonicStreamStruct -> Z * list (Z * float) * sonicStreamStruct.
Variable sonicReadFloatFromStream :
  list float -> Z -> sonicStreamStruct -> Z * list float * sonicStreamStruct.
Variable sonicFlushStream :
  sonicStreamStruct -> Z * list (Z * float) * sonicStreamStruct.
Variable sonicSetSpeed : float -> sonicStreamStruct -> sonicStreamStruct.
Variable sonicGetSpeed : sonicStreamStruct -> float.
Variable sonicSetRate : float -> sonicStreamStruct -> sonicStreamStruct.
Variable sonicSamplesAvailable : sonicStreamStruct -> Z.
Variable sonicSpeedCallback : sonicStreamStruct -> sonicStreamStruct.
Variable sonicIntGetUserData : sonicStreamStruct -> option positive.
Variable speedyComputeTension :
  Z -> speedyStreamStruct -> Z * float * speedyStreamStruct.
Variable speedyAddData : list float -> Z -> speedyStreamStruct -> speedyStreamStruct.

(** [static_cast<float>(int)] *)
Variable static_cast_float : Z -> float.

(** [::operator new(bytes)]: whether the C++ heap supplies a block of that
    many bytes.  When it does not, [std::bad_alloc] is thrown. *)
Variable heap_supplies : Z -> bool.

(** The process: the C heap holding the live sonic streams, the live
    wrapper objects, the static [streamMap], and what [printf] wrote. *)
Record world : Type := {
  c_heap : gmap positive sonicStreamStruct;
  objects : gmap positive SonicStreamWrapper;
  streamMap : gmap positive positive;
  stdout : list (string * float)
}.

Definition set_c_heap (h : gmap positive sonicStreamStruct) (w : world) : world :=
  {| c_heap := h; objects := objects w; streamMap := streamMap w;
     stdout := stdout w |}.

Definition set_objects (o : gmap positive SonicStreamWrapper) (w : world) : world :=
  {| c_heap := c_heap w; objects := o; streamMap := streamMap w;
     stdout := stdout w |}.

Definition set_streamMap (m : gmap positive positive) (w : world) : world :=
  {| c_heap := c_heap w; objects := objects w; streamMap := m;
     stdout := stdout w |}.

Definition printf (format : string) (arg : float) : M world unit :=
  modify (fun w =>
    {| c_heap := c_heap w; objects := objects w; streamMap := streamMap w;
       stdout := stdout w ++ [(format, arg)] |}).

(** The fields of [*this].  embind refuses a call on a deleted object. *)
Definition deref (this : positive) : M world SonicStreamWrapper :=
  fun w =>
    match objects w !! this with
    | Some o => (Return o, w)
    | None => (Throw (BindingError "cannot pass deleted object"), w)
    end.

(** A call of a C function on the pointee of [stream].  A null or dangling
    pointer is outside C's defined behaviour; the model stops there. *)
Definition c_call {A} (stream : option positive)
    (f : sonicStreamStruct -> A * sonicStreamStruct) : M world A :=
  fun w =>
    match stream with
    | Some p =>
        match c_heap w !! p with
        | Some s => let '(a, s') := f s in
                    (Return a, set_c_heap (<[p := s']> (c_heap w)) w)
        | None => (Throw (Trap "dangling sonicStream"), w)
        end
    | None => (Throw (Trap "null sonicStream"), w)
    end.

(** A method that only touches the fields of [*this]. *)
Definition on_this {A} (this : positive) (m : M SonicStreamWrapper A)
  : M world A :=
  fun w =>
    match objects w !! this with
    | Some o => let '(r, o') := m o in
                (r, set_objects (<[this := o']> (objects w)) w)
    | None => (Throw (BindingError "cannot pass deleted object"), w)
    end.

(** **** wasm_exports.c *)

Definition sonicEnableNonlinearSpeedup (stream : option positive)
    (factor : float) : M world unit :=
  match stream with
  | Some p =>
      let* userData := c_call (Some p) (fun s => (sonicIntGetUserData s, s)) in
      match userData with
      | Some _ => printf "Setting nonlinear speedup factor to %f\n" factor
      | None => ret tt
      end
  | None => ret tt
  end.

Definition sonicSetDurationFeedbackStrength (stream : option positive)
    (factor : float) : M world unit :=
  match stream with
  | Some p =>
      let* userData := c_call (Some p) (fun s => (sonicIntGetUserData s, s)) in
      match userData with
      | Some _ => printf "Setting duration feedback strength to %f\n" factor
      | None => ret tt
      end
  | None => ret tt
  end.

(** **** SonicStreamWrapper: the speed profile *)

Definition recordSpeed (time : Z) (speed : float) : M SonicStreamWrapper unit :=
  modify (fun this =>
    set_speedProfile
      ((speedProfile this ++ [static_cast_float time]) ++ [speed]) this).

Definition speedCallbackStatic (stream : positive) (time : Z) (speed : float)
  : M world unit :=
  fun w =>
    match streamMap w !! stream with
    | Some wrapper =>
        match objects w !! wrapper with
        | Some o =>
            (Return tt,
             set_objects
               (<[wrapper := snd (recordSpeed time speed o)]> (objects w)) w)
        | None => (Throw (Trap "dangling SonicStreamWrapper"), w)
        end
    | None => (Return tt, w)
    end.

Definition getSpeedProfile : M SonicStreamWrapper val :=
  let* this := get in
  match speedProfile this with
  | [] => ret undefined
  | _ =>
      let result := floatVectorToJsArray (speedProfile this) in
      modify (set_speedProfile []) ;;
      ret result
  end.

(** The callback invocations a C function made on [stream], in order.  They
    are made while the C function runs; a callback writes a wrapper's
    [speedProfile] and nothing a C function reads, so running them once the
    function has returned leaves the same world. *)
Fixpoint callbacks (stream : option positive) (made : list (Z * float))
  : M world unit :=
  match made with
  | [] => ret tt
  | (time, speed) :: made' =>
      match stream with
      | Some p => speedCallbackStatic p time speed
      | None => ret tt
      end ;;
      callbacks stream made'
  end.

(** **** SonicStreamWrapper: construction and destruction *)

Definition SonicStreamWrapper_new (sample_rate num_channels : Z)
  : M world positive :=
  fun w =>
    let this := fresh (dom (objects w)) in
    match sonicCreateStream sample_rate num_channels with
    | None =>
        (Throw (runtime_error "Failed to create Sonic stream: out of memory"), w)
    | Some s =>
        let stream := fresh (dom (c_heap w)) in
        (Return this,
         {| c_heap := <[stream := s]> (c_heap w);
            objects := <[this := {| stream := Some stream;
                                    numChannels := num_channels;
                                    sampleRate := sample_rate;
                                    speedProfile := [] |}]> (objects w);
            streamMap := <[stream := this]> (streamMap w);
            stdout := stdout w |})
    end.

(** [wrapper.delete()]: embind refuses a handle that is already deleted;
    otherwise the destructor erases the stream from [streamMap] and
    destroys it, and the object is freed. *)
Definition SonicStreamWrapper_delete (this : positive) : M world unit :=
  fun w =>
    match objects w !! this with
    | None => (Throw (BindingError "SonicStream instance already deleted"), w)
    | Some o =>
        (match stream o with
         | Some p =>
             modify (fun w =>
               set_c_heap (delete p (c_heap w))
                 (set_streamMap (delete p (streamMap w)) w))
         | None => ret tt
         end ;;
         modify (fun w => set_objects (delete this (objects w)) w)) w
    end.

(** **** SonicStreamWrapper: the methods *)

Definition writeFloatToStream (this : positive) (input_buffer : val)
    (sample_count : Z) : M world Z :=
  let* o := deref this in
  let data := jsArrayToFloatVector input_buffer in
  match data with
  | [] => ret 0
  | _ =>
      let* (written, made) :=
        c_call (stream o) (sonicWriteFloatToStream data sample_count) in
      callbacks (stream o) made ;;
      ret written
  end.

(** [memory] is what the caller placed at [input_ptr]. *)
Definition writeFloatToStreamPtr (this : positive) (memory : list float)
    (sample_count : Z) : M world Z :=
  let* o := deref this in
  let* (written, made) :=
    c_call (stream o) (sonicWriteFloatToStream memory sample_count) in
  callbacks (stream o) made ;;
  ret written.

(** The storage of a vector of [elements] floats; an empty vector has
    none. *)
Definition allocate (elements : Z) : outcome unit :=
  if elements =? 0 then Return tt
  else if heap_supplies (4 * elements) then Return tt
  else Throw (bad_alloc "std::bad_alloc").

(** [std::vector<float> output(n)], for [n] a [size_t]: zero-filled. *)
Definition vector_new (n : Z) : outcome (list float) :=
  if max_size <? n then Throw (length_error "vector")
  else
    match allocate n with
    | Return _ => Return (replicate (Z.to_nat n) 0%float)
    | Throw e => Throw e
    end.

(** [output.resize(n)], for [n] a [size_t]: a vector built by [vector_new]
    has no spare capacity, so growing it allocates. *)
Definition vector_resize (n : Z) (vec : list float) : outcome (list float) :=
  if n <=? Z.of_nat (length vec) then Return (take (Z.to_nat n) vec)
  else if max_size <? n then Throw (length_error "vector")
  else
    match allocate (recommend (Z.of_nat (length vec)) n) with
    | Return _ => Return (vec ++ replicate (Z.to_nat n - length vec) 0%float)
    | Throw e => Throw e
    end.

Definition readFloatFromStream (this : positive) (buffer_size : Z)
  : M world val :=
  let* o := deref this in
  let* output :=
    lift (vector_new (to_size_t (int_times buffer_size (numChannels o)))) in
  let* (samples_read, output) :=
    c_call (stream o) (sonicReadFloatFromStream output buffer_size) in
  if samples_read <=? 0 then ret undefined
  else
    let* output :=
      lift (vector_resize (to_size_t (int_times samples_read (numChannels o)))
              output) in
    ret (floatVectorToJsArray output).

(** [memory] is what lies at [output_ptr]; the call returns the count
    together with what lies there afterwards. *)
Definition readFloatFromStreamPtr (this : positive) (memory : list float)
    (buffer_size : Z) : M world (Z * list float) :=
  let* o := deref this in
  c_call (stream o) (sonicReadFloatFromStream memory buffer_size).

Definition flushStream (this : positive) : M world Z :=
  let* o := deref this in
  let* (flushed, made) := c_call (stream o) sonicFlushStream in
  callbacks (stream o) made ;;
  ret flushed.

Definition setSpeed (this : positive) (rate : float) : M world unit :=
  let* o := deref this in
  c_call (stream o) (fun s => (tt, sonicSetSpeed rate s)).

Definition getSpeed (this : positive) : M world float :=
  let* o := deref this in
  c_call (stream o) (fun s => (sonicGetSpeed s, s)).

Definition setRate (this : positive) (rate : float) : M world unit :=
  let* o := deref this in
  c_call (stream o) (fun s => (tt, sonicSetRate rate s)).

Definition enableNonlinearSpeedup (this : positive) (nonlinear_factor : float)
  : M world unit :=
  let* o := deref this in
  sonicEnableNonlinearSpeedup (stream o) nonlinear_factor.

Definition setDurationFeedbackStrength (this : positive) (factor : float)
  : M world unit :=
  let* o := deref this in
  sonicSetDurationFeedbackStrength (stream o) factor.

Definition samplesAvailable (this : positive) : M world Z :=
  let* o := deref this in
  c_call (stream o) (fun s => (sonicSamplesAvailable s, s)).

Definition setupSpeedCallback (this : positive) : M world unit :=
  let* o := deref this in
  c_call (stream o) (fun s => (tt, sonicSpeedCallback s)).

Definition getSpeedyTemporalHysteresisFuture (MATCH_MATLAB : bool)
    (this : SonicStreamWrapper) : Z :=
  if MATCH_MATLAB then 8 else 12.

(** **** SpeedyStreamWrapper

    The wrapper holds nothing but its [speedyStream]. *)

Definition computeTension (at_time : Z) : M speedyStreamStruct float :=
  fun this =>
    let '(result, tension, this') := speedyComputeTension at_time this in
    if result =? 0
    then (Throw (runtime_error
                   ("Insufficient data to compute tension at time "
                    +:+ pretty at_time)), this')
    else (Return tension, this').


Definition temporalHysteresisFuture (MATCH_MATLAB : bool)
    (this : speedyStreamStruct) : Z :=
  if MATCH_MATLAB then 8 else 12.

Definition temporalHysteresisPast (MATCH_MATLAB : bool)
    (this : speedyStreamStruct) : Z :=
  if MATCH_MATLAB then 12 else 8.


(** The profile once the callback invocations [made] are recorded. *)
Definition recorded (profile : list float) (made : list (Z * float))
  : list float :=
  foldl (fun profile e => (profile ++ [static_cast_float (fst e)]) ++ [snd e])
    profile made.

(** The life of one speed-profile buffer: the callback records, the caller
    drains. *)
Inductive profile_event : Type :=
  | Recorded (time : Z) (speed : float)
  | Drained.

(** What each drain of a sequence returned, and the wrapper at the end. *)
Fixpoint profile_log (es : list profile_event) (this : SonicStreamWrapper)
  : list val * SonicStreamWrapper :=
  match es with
  | [] => ([], this)
  | Recorded time speed :: es' =>
      profile_log es' (snd (recordSpeed time speed this))
  | Drained :: es' =>
      match getSpeedProfile this with
      | (Return v, this') =>
          let '(drained, this'') := profile_log es' this' in
          (v :: drained, this'')
      | (Throw _, this') => profile_log es' this'
      end
  end.

Definition recordings (es : list profile_event) : list (Z * float) :=
  omap (fun e => match e with
                 | Recorded time speed => Some (time, speed)
                 | Drained => None
                 end) es.

(** **** Traces of calls on the objects of one process *)

Definition returning {S A} (f : A -> result) (m : M S A) : M S result :=
  let* a := m in ret (f a).

Definition invoke (this : positive) (c : call) : M world result :=
  match c with
  | WriteFloatToStream input_buffer sample_count =>
      returning Int (writeFloatToStream this input_buffer sample_count)
  | WriteFloatToStreamPtr memory sample_count =>
      returning Int (writeFloatToStreamPtr this memory sample_count)
  | ReadFloatFromStream buffer_size =>
      returning Value (readFloatFromStream this buffer_size)
  | ReadFloatFromStreamPtr memory buffer_size =>
      returning (fun r => IntAndMemory (fst r) (snd r))
        (readFloatFromStreamPtr this memory buffer_size)
  | FlushStream => returning Int (flushStream this)
  | SetSpeed rate => returning (fun _ => Void) (setSpeed this rate)
  | GetSpeed => returning Float (getSpeed this)
  | SetRate rate => returning (fun _ => Void) (setRate this rate)
  | EnableNonlinearSpeedup nonlinear_factor =>
      returning (fun _ => Void) (enableNonlinearSpeedup this nonlinear_factor)
  | SetDurationFeedbackStrength factor =>
      returning (fun _ => Void) (setDurationFeedbackStrength this factor)
  | SamplesAvailable => returning Int (samplesAvailable this)
  | SetupSpeedCallback => returning (fun _ => Void) (setupSpeedCallback this)
  | GetSpeedProfile => returning Value (on_this this getSpeedProfile)
  end.

Fixpoint run (t : list (positive * call)) (w : world)
  : list (positive * outcome result) * world :=
  match t with
  | [] => ([], w)
  | (this, c) :: t' =>
      let '(r, w') := invoke this c w in
      let '(log, w'') := run t' w' in
      ((this, r) :: log, w'')
  end.

(** **** One stream on its own

    What a wrapper and its engine stream amount to when nothing else
    exists: the fields other than the pointer, and the pointee. *)
Record alone : Type := {
  alone_numChannels : Z;
  alone_sampleRate : Z;
  alone_speedProfile : list float;
  alone_stream : sonicStreamStruct
}.

Definition with_stream (s : sonicStreamStruct) (l : alone) : alone :=
  {| alone_numChannels := alone_numChannels l;
     alone_sampleRate := alone_sampleRate l;
     alone_speedProfile := alone_speedProfile l;
     alone_stream := s |}.

Definition with_profile (profile : list float) (l : alone) : alone :=
  {| alone_numChannels := alone_numChannels l;
     alone_sampleRate := alone_sampleRate l;
     alone_speedProfile := profile;
     alone_stream := alone_stream l |}.

Definition invoke_alone (c : call) : M alone result :=
  fun l =>
    let s := alone_stream l in
    match c with
    | WriteFloatToStream input_buffer sample_count =>
        match jsArrayToFloatVector input_buffer with
        | [] => (Return (Int 0), l)
        | data =>
            let '(written, made, s') := sonicWriteFloatToStream data sample_count s in
            (Return (Int written),
             with_profile (recorded (alone_speedProfile l) made) (with_stream s' l))
        end
    | WriteFloatToStreamPtr memory sample_count =>
        let '(written, made, s') := sonicWriteFloatToStream memory sample_count s in
        (Return (Int written),
         with_profile (recorded (alone_speedProfile l) made) (with_stream s' l))
    | ReadFloatFromStream buffer_size =>
        match vector_new
                (to_size_t (int_times buffer_size (alone_numChannels l))) with
        | Return output =>
            let '(samples_read, output, s') :=
              sonicReadFloatFromStream output buffer_size s in
            if samples_read <=? 0
            then (Return (Value undefined), with_stream s' l)
            else
              match vector_resize
                      (to_size_t (int_times samples_read (alone_numChannels l)))
                      output with
              | Return output =>
                  (Return (Value (floatVectorToJsArray output)), with_stream s' l)
              | Throw e => (Throw e, with_stream s' l)
              end
        | Throw e => (Throw e, l)
        end
    | ReadFloatFromStreamPtr memory buffer_size =>
        let '(samples_read, memory', s') :=
          sonicReadFloatFromStream memory buffer_size s in
        (Return (IntAndMemory samples_read memory'), with_stream s' l)
    | FlushStream =>
        let '(flushed, made, s') := sonicFlushStream s in
        (Return (Int flushed),
         with_profile (recorded (alone_speedProfile l) made) (with_stream s' l))
    | SetSpeed rate => (Return Void, with_stream (sonicSetSpeed rate s) l)
    | GetSpeed => (Return (Float (sonicGetSpeed s)), l)
    | SetRate rate => (Return Void, with_stream (sonicSetRate rate s) l)
    | EnableNonlinearSpeedup _ => (Return Void, l)
    | SetDurationFeedbackStrength _ => (Return Void, l)
    | SamplesAvailable => (Return (Int (sonicSamplesAvailable s)), l)
    | SetupSpeedCallback => (Return Void, with_stream (sonicSpeedCallback s) l)
    | GetSpeedProfile =>
        match alone_speedProfile l with
        | [] => (Return (Value undefined), l)
        | profile => (Return (Value (floatVectorToJsArray profile)), with_profile [] l)
        end
    end.

Fixpoint run_alone (cs : list call) (l : alone) : list (outcome result) :=
  match cs with
  | [] => []
  | c :: cs' => let '(r, l') := invoke_alone c l in r :: run_alone cs' l'
  end.

(** What object [x] and the stream it points to amount to in [w]. *)
Definition view (w : world) (x : positive) : option alone :=
  match objects w !! x with
  | Some o =>
      match stream o with
      | Some p =>
          match c_heap w !! p with
          | Some s =>
              Some {| alone_numChannels := numChannels o;
                      alone_sampleRate := sampleRate o;
                      alone_speedProfile := speedProfile o;
                      alone_stream := s |}
          | None => None
          end
      | None => None
      end
  | None => None
  end.

(** Every live wrapper points to a live stream, and [streamMap] sends that
    stream back to the wrapper. *)
Definition consistent (w : world) : Prop :=
  forall x o, objects w !! x = Some o ->
    exists p, stream o = Some p /\ is_Some (c_heap w !! p) /\
              streamMap w !! p = Some x.

(** [w'] differs from [w] at most in object [x], which becomes [o'], and in
    the stream [p], which becomes [s']; [printf] may have run. *)
Definition touches_only (w w' : world) (x p : positive)
    (o' : SonicStreamWrapper) (s' : sonicStreamStruct) : Prop :=
  streamMap w' = streamMap w /\
  objects w' = <[x := o']> (objects w) /\
  c_heap w' = <[p := s']> (c_heap w).

Definition alone_of (o : SonicStreamWrapper) (s : sonicStreamStruct) : alone :=
  {| alone_numChannels := numChannels o; alone_sampleRate := sampleRate o;
     alone_speedProfile := speedProfile o; alone_stream := s |}.

(** **** The life of the wrappers of one process

    JavaScript constructs wrappers, calls their methods and deletes them,
    in any order. *)
Inductive op : Type :=
  | Construct (sample_rate num_channels : Z)
  | Destroy (this : positive)
  | Invoke (this : positive) (c : call).

Inductive op_result : Type :=
  | Constructed (this : positive)
  | Destroyed
  | Returned (r : result).

Definition perform (o : op) : M world op_result :=
  match o with
  | Construct sample_rate num_channels =>
      let* this := SonicStreamWrapper_new sample_rate num_channels in
      ret (Constructed this)
  | Destroy this => SonicStreamWrapper_delete this ;; ret Destroyed
  | Invoke this c => let* r := invoke this c in ret (Returned r)
  end.

Fixpoint life (ops : list op) (w : world) : list (outcome op_result) * world :=
  match ops with
  | [] => ([], w)
  | o :: ops' =>
      let '(r, w') := perform o w in
      let '(log, w'') := life ops' w' in
      (r :: log, w'')
  end.

(** The process before any wrapper is constructed. *)
Definition empty_process : world :=
  {| c_heap := ∅; objects := ∅; streamMap := ∅; stdout := [] |}.

(** Wrappers and streams are paired off: besides [consistent], every entry
    of [streamMap] leads to a live wrapper that owns that stream, and every
    live stream has an entry. *)
Definition tidy (w : world) : Prop :=
  consistent w /\
  (forall p x, streamMap w !! p = Some x ->
     exists o, objects w !! x = Some o /\ stream o = Some p) /\
  (forall p, is_Some (c_heap w !! p) -> is_Some (streamMap w !! p)).

(** *** Facts about the wrappers, for any engine *)

Lemma set_objects_same (w : world) : set_objects (objects w) w = w.
Proof. by destruct w. Qed.

Lemma set_speedProfile_same (o : SonicStreamWrapper) :
  set_speedProfile (speedProfile o) o = o.
Proof. by destruct o. Qed.

Lemma callbacks_recorded (p x : positive) (o : SonicStreamWrapper) made (w : world) :
  streamMap w !! p = Some x -> objects w !! x = Some o ->
  callbacks (Some p) made w =
  (Return tt,
   set_objects
     (<[x := set_speedProfile (recorded (speedProfile o) made) o]> (objects w)) w).
Proof.
  revert o w. induction made as [|[time speed] made IH]; intros o w Hmap Hobj; simpl.
  - rewrite set_speedProfile_same, insert_id by done. by rewrite set_objects_same.
  - unfold bind, speedCallbackStatic. rewrite Hmap, Hobj. simpl.
    rewrite (IH (snd (recordSpeed time speed o))
               (set_objects (<[x := snd (recordSpeed time speed o)]> (objects w)) w));
      [|done|simpl; apply lookup_insert_eq].
    simpl. by rewrite insert_insert_eq.
Qed.

Lemma view_live (w : world) x o p s :
  objects w !! x = Some o -> stream o = Some p -> c_heap w !! p = Some s ->
  view w x = Some (alone_of o s).
Proof. intros Ho Hp Hs. unfold view. by rewrite Ho, Hp, Hs. Qed.

Lemma view_inv (w : world) x l :
  view w x = Some l ->
  exists o p s, objects w !! x = Some o /\ stream o = Some p /\
                c_heap w !! p = Some s /\ l = alone_of o s.
Proof.
  unfold view. intros H.
  destruct (objects w !! x) as [o|]; [|done].
  destruct (stream o) as [p|] eqn:Hp; [|done].
  destruct (c_heap w !! p) as [s|] eqn:Hs; [|done].
  injection H as <-. by exists o, p, s.
Qed.

Lemma touches_only_view (w w' : world) x p o o' s' :
  consistent w ->
  objects w !! x = Some o -> stream o = Some p -> stream o' = Some p ->
  touches_only w w' x p o' s' ->
  consistent w' /\ view w' x = Some (alone_of o' s') /\
  forall y, y <> x -> view w' y = view w y.
Proof.
  intros Hc Ho Hp Hp' (Hmap & Hobj & Hheap).
  destruct (Hc x o Ho) as (p0 & Hp0 & _ & Hx). rewrite Hp in Hp0. injection Hp0 as <-.
  assert (forall y oy q, y <> x -> objects w !! y = Some oy -> stream oy = Some q -> q <> p)
    as Hother.
  { intros y oy q Hy Hoy Hq ->. destruct (Hc y oy Hoy) as (q' & Hq' & _ & Hy').
    rewrite Hq in Hq'. injection Hq' as <-. rewrite Hx in Hy'. by injection Hy'. }
  split; [|split].
  - intros y oy Hoy. rewrite Hobj in Hoy.
    destruct (decide (y = x)) as [->|Hne].
    + rewrite lookup_insert_eq in Hoy. injection Hoy as <-.
      exists p. split; [done|]. rewrite Hheap, Hmap, lookup_insert_eq. eauto.
    + rewrite lookup_insert_ne in Hoy by done.
      destruct (Hc y oy Hoy) as (q & Hq & Hlive & Hy).
      exists q. split; [done|]. rewrite Hmap, Hheap. split; [|done].
      rewrite lookup_insert_ne; [done|]. intros <-. by eapply Hother.
  - apply (view_live w' x o' p s'); [by rewrite Hobj, lookup_insert_eq|done|by rewrite Hheap, lookup_insert_eq].
  - intros y Hy. unfold view. rewrite Hobj, lookup_insert_ne by done.
    destruct (objects w !! y) as [oy|] eqn:Hoy; [|done].
    destruct (stream oy) as [q|] eqn:Hq; [|done].
    rewrite Hheap, lookup_insert_ne; [done|]. intros <-. by eapply Hother.
Qed.

Lemma alone_of_profile o s profile :
  with_profile profile (alone_of o s) = alone_of (set_speedProfile profile o) s.
Proof. done. Qed.

Lemma alone_of_stream o s s' : with_stream s' (alone_of o s) = alone_of o s'.
Proof. done. Qed.

Ltac touches :=
  unfold touches_only; simpl;
  repeat split;
  rewrite ?set_speedProfile_same, ?insert_insert_eq;
  repeat (rewrite insert_id; [|by rewrite ?lookup_insert_eq]);
  try done.

Lemma invoke_agrees (w : world) x c o p s :
  streamMap w !! p = Some x -> objects w !! x = Some o ->
  stream o = Some p -> c_heap w !! p = Some s ->
  exists o' s',
    stream o' = Some p /\
    fst (invoke x c w) = fst (invoke_alone c (alone_of o s)) /\
    snd (invoke_alone c (alone_of o s)) = alone_of o' s' /\
    touches_only w (snd (invoke x c w)) x p o' s'.
Proof.
  intros Hmap Hobj Hp Hs.
  destruct c; unfold invoke, returning, bind; simpl.
  - (* writeFloatToStream *)
    unfold writeFloatToStream, bind, deref. rewrite Hobj. simpl.
    destruct (jsArrayToFloatVector input_buffer) as [|d data] eqn:Hdata.
    + exists o, s. simpl. split; [done|]. split; [done|]. split; [done|]. touches.
    + unfold c_call. rewrite Hp, Hs.
      destruct (sonicWriteFloatToStream (d :: data) sample_count s)
        as [[written made] s'].
      erewrite (callbacks_recorded p x o); [|done..].
      simpl.
      exists (set_speedProfile (recorded (speedProfile o) made) o), s'.
      split; [done|]. split; [done|]. split; [done|]. touches.
  - (* writeFloatToStreamPtr *)
    unfold writeFloatToStreamPtr, bind, deref, c_call. rewrite Hobj. simpl.
    rewrite Hp, Hs.
    destruct (sonicWriteFloatToStream memory sample_count s) as [[written made] s'].
    erewrite (callbacks_recorded p x o); [|done..]. simpl.
    exists (set_speedProfile (recorded (speedProfile o) made) o), s'.
    split; [done|]. split; [done|]. split; [done|]. touches.
  - (* readFloatFromStream *)
    unfold readFloatFromStream, bind, deref, c_call, lift. rewrite Hobj. simpl.
    destruct (vector_new _) as [output|e].
    + rewrite Hp, Hs.
      destruct (sonicReadFloatFromStream output buffer_size s)
        as [[samples_read output'] s'].
      exists o, s'. simpl. split; [done|].
      destruct (samples_read <=? 0); simpl;
        [split; [done|]; split; [done|]; touches|].
      destruct (vector_resize _ output') as [output''|e]; simpl;
        (split; [done|]; split; [done|]; touches).
    + exists o, s. simpl. split; [done|]. split; [done|]. split; [done|]. touches.
  - (* readFloatFromStreamPtr *)
    unfold readFloatFromStreamPtr, bind, deref, c_call. rewrite Hobj. simpl.
    rewrite Hp, Hs.
    destruct (sonicReadFloatFromStream memory buffer_size s) as [[samples_read memory'] s'].
    exists o, s'. simpl. split; [done|]. split; [done|]. split; [done|]. touches.
  - (* flushStream *)
    unfold flushStream, bind, deref, c_call. rewrite Hobj. simpl.
    rewrite Hp, Hs.
    destruct (sonicFlushStream s) as [[flushed made] s'].
    erewrite (callbacks_recorded p x o); [|done..]. simpl.
    exists (set_speedProfile (recorded (speedProfile o) made) o), s'.
    split; [done|]. split; [done|]. split; [done|]. touches.
  - (* setSpeed *)
    unfold setSpeed, bind, deref, c_call. rewrite Hobj. simpl. rewrite Hp, Hs.
    exists o, (sonicSetSpeed rate s). simpl.
    split; [done|]. split; [done|]. split; [done|]. touches.
  - (* getSpeed *)
    unfold getSpeed, bind, deref, c_call. rewrite Hobj. simpl. rewrite Hp, Hs.
    exists o, s. simpl. split; [done|]. split; [done|]. split; [done|]. touches.
  - (* setRate *)
    unfold setRate, bind, deref, c_call. rewrite Hobj. simpl. rewrite Hp, Hs.
    exists o, (sonicSetRate rate s). simpl.
    split; [done|]. split; [done|]. split; [done|]. touches.
  - (* enableNonlinearSpeedup *)
    unfold enableNonlinearSpeedup, sonicEnableNonlinearSpeedup, bind, deref, c_call.
    rewrite Hobj. simpl. rewrite Hp. simpl. rewrite Hs.
    exists o, s. simpl.
    destruct (sonicIntGetUserData s); simpl;
      (split; [done|]; split; [done|]; split; [done|]; touches).
  - (* setDurationFeedbackStrength *)
    unfold setDurationFeedbackStrength, sonicSetDurationFeedbackStrength, bind, deref, c_call.
    rewrite Hobj. simpl. rewrite Hp. simpl. rewrite Hs.
    exists o, s. simpl.
    destruct (sonicIntGetUserData s); simpl;
      (split; [done|]; split; [done|]; split; [done|]; touches).
  - (* samplesAvailable *)
    unfold samplesAvailable, bind, deref, c_call. rewrite Hobj. simpl. rewrite Hp, Hs.
    exists o, s. simpl. split; [done|]. split; [done|]. split; [done|]. touches.
  - (* setupSpeedCallback *)
    unfold setupSpeedCallback, bind, deref, c_call. rewrite Hobj. simpl. rewrite Hp, Hs.
    exists o, (sonicSpeedCallback s). simpl.
    split; [done|]. split; [done|]. split; [done|]. touches.
  - (* getSpeedProfile *)
    unfold on_this, getSpeedProfile, bind, get. rewrite Hobj. simpl.
    destruct (speedProfile o) as [|v profile] eqn:Hprofile; simpl.
    + exists o, s. simpl. split; [done|]. split; [done|]. split; [done|]. touches.
    + exists (set_speedProfile [] o), s. simpl.
      split; [done|]. split; [done|]. split; [done|]. touches.
Qed.

Lemma invoke_view (w : world) x c l :
  consistent w -> view w x = Some l ->
  fst (invoke x c w) = fst (invoke_alone c l) /\
  consistent (snd (invoke x c w)) /\
  view (snd (invoke x c w)) x = Some (snd (invoke_alone c l)) /\
  forall y, y <> x -> view (snd (invoke x c w)) y = view w y.
Proof.
  intros Hc Hv. destruct (view_inv w x l Hv) as (o & p & s & Ho & Hp & Hs & ->).
  destruct (Hc x o Ho) as (p0 & Hp0 & _ & Hmap).
  rewrite Hp in Hp0. injection Hp0 as <-.
  destruct (invoke_agrees w x c o p s Hmap Ho Hp Hs) as (o' & s' & Hp' & Hr & Hl & Ht).
  destruct (touches_only_view w _ x p o o' s' Hc Ho Hp Hp' Ht) as (Hc' & Hv' & Hy).
  rewrite Hl. done.
Qed.

Lemma invoke_deleted (w : world) x c :
  objects w !! x = None ->
  invoke x c w = (Throw (BindingError "cannot pass deleted object"), w).
Proof.
  intros Hx.
  destruct c; unfold invoke, returning, bind; simpl;
    unfold writeFloatToStream, writeFloatToStreamPtr, readFloatFromStream,
      readFloatFromStreamPtr, flushStream, setSpeed, getSpeed, setRate,
      enableNonlinearSpeedup, setDurationFeedbackStrength, samplesAvailable,
      setupSpeedCallback, on_this, bind, deref; by rewrite Hx.
Qed.

Lemma consistent_live (w : world) x :
  consistent w -> is_Some (objects w !! x) -> is_Some (view w x).
Proof.
  intros Hc [o Ho]. destruct (Hc x o Ho) as (p & Hp & [s Hs] & _).
  rewrite (view_live w x o p s); eauto.
Qed.

(** A call on one object leaves every other object, and the stream it
    points to, as they were. *)
Lemma invoke_other (w : world) x y c :
  consistent w -> y <> x ->
  consistent (snd (invoke y c w)) /\ view (snd (invoke y c w)) x = view w x.
Proof.
  intros Hc Hne. destruct (objects w !! y) as [oy|] eqn:Hy.
  - destruct (consistent_live w y Hc ltac:(eauto)) as [ly Hly].
    destruct (invoke_view w y c ly Hc Hly) as (_ & Hc' & _ & Hother).
    split; [done|]. by apply Hother.
  - by rewrite invoke_deleted.
Qed.

Lemma calls_of_cons x y c (t : list (positive * call)) :
  calls_of x ((y, c) :: t) =
  if decide (y = x) then c :: calls_of x t else calls_of x t.
Proof. unfold calls_of. simpl. by destruct (decide (y = x)). Qed.

Lemma results_of_cons x y r (log : list (positive * outcome result)) :
  results_of x ((y, r) :: log) =
  if decide (y = x) then r :: results_of x log else results_of x log.
Proof. unfold results_of. simpl. by destruct (decide (y = x)). Qed.

Lemma run_view (t : list (positive * call)) (w : world) x l :
  consistent w -> view w x = Some l ->
  results_of x (fst (run t w)) = run_alone (calls_of x t) l.
Proof.
  revert w l. induction t as [|[y c] t IH]; intros w l Hc Hv; [done|].
  rewrite calls_of_cons.
  change (run ((y, c) :: t) w)
    with (let '(r, w') := invoke y c w in
          let '(log, w'') := run t w' in ((y, r) :: log, w'')).
  destruct (decide (y = x)) as [->|Hne].
  - destruct (invoke_view w x c l Hc Hv) as (Hr & Hc' & Hv' & _).
    cbn [run_alone].
    destruct (invoke x c w) as [r w']. destruct (invoke_alone c l) as [r' l'].
    cbn [fst snd] in *. subst r'.
    specialize (IH w' l' Hc' Hv'). destruct (run t w') as [log w''].
    cbn [fst] in *. rewrite results_of_cons, decide_True by done. by f_equal.
  - destruct (invoke_other w x y c Hc Hne) as (Hc' & Hv').
    destruct (invoke y c w) as [r w']. cbn [fst snd] in *. rewrite Hv in Hv'.
    specialize (IH w' l Hc' Hv'). destruct (run t w') as [log w''].
    cbn [fst] in *. by rewrite results_of_cons, decide_False by done.
Qed.

Lemma SonicStreamWrapper_new_view (w w' : world) sample_rate num_channels a :
  consistent w ->
  SonicStreamWrapper_new sample_rate num_channels w = (Return a, w') ->
  exists s,
    sonicCreateStream sample_rate num_channels = Some s /\
    consistent w' /\
    objects w !! a = None /\
    view w' a = Some {| alone_numChannels := num_channels;
                        alone_sampleRate := sample_rate;
                        alone_speedProfile := [];
                        alone_stream := s |} /\
    forall y, y <> a -> view w' y = view w y.
Proof.
  intros Hc Hnew. unfold SonicStreamWrapper_new in Hnew.
  destruct (sonicCreateStream sample_rate num_channels) as [s|]; [|done].
  injection Hnew as <- <-. exists s. split; [done|].
  set (a := fresh (dom (objects w))). set (p := fresh (dom (c_heap w))).
  assert (objects w !! a = None) as Ha by (apply not_elem_of_dom, is_fresh).
  assert (c_heap w !! p = None) as Hp by (apply not_elem_of_dom, is_fresh).
  assert (forall y oy, objects w !! y = Some oy -> stream oy <> Some p) as Hfresh.
  { intros y oy Hy Hq. destruct (Hc y oy Hy) as (q & Hq' & [sq Hsq] & _).
    rewrite Hq in Hq'. injection Hq' as <-. by rewrite Hp in Hsq. }
  split; [|split; [done|split]].
  - intros y oy Hy. simpl in *.
    destruct (decide (y = a)) as [->|Hne].
    + rewrite lookup_insert_eq in Hy. injection Hy as <-. simpl.
      exists p. rewrite !lookup_insert_eq. eauto.
    + rewrite lookup_insert_ne in Hy by done.
      destruct (Hc y oy Hy) as (q & Hq & Hlive & Hmap).
      assert (p <> q) by (intros <-; by eapply Hfresh).
      exists q. by rewrite !lookup_insert_ne by done.
  - unfold view. simpl. rewrite lookup_insert_eq. simpl. by rewrite lookup_insert_eq.
  - intros y Hne. unfold view. simpl. rewrite lookup_insert_ne by done.
    destruct (objects w !! y) as [oy|] eqn:Hy; [|done].
    destruct (stream oy) as [q|] eqn:Hq; [|done].
    rewrite lookup_insert_ne; [done|]. intros <-. by eapply Hfresh.
Qed.

(** *** The speed profile buffer *)

Lemma getSpeedProfile_drains (this : SonicStreamWrapper) :
  getSpeedProfile this =
  (Return (floatVectorToJsArray (speedProfile this)), set_speedProfile [] this).
Proof.
  unfold getSpeedProfile, bind, get. destruct this as [st nc sr profile]. simpl.
  by destruct profile.
Qed.

Lemma jsArray_of_vector (vec : list float) :
  jsArrayToFloatVector (floatVectorToJsArray vec) = vec.
Proof. by destruct vec. Qed.

Lemma recorded_app (profile : list float) (made : list (Z * float)) :
  recorded profile made = profile ++ recorded [] made.
Proof.
  revert profile. induction made as [|e made IH]; intros profile; simpl.
  - by rewrite app_nil_r.
  - rewrite (IH ((profile ++ _) ++ _)), (IH [_; _]).
    by rewrite <- !app_assoc.
Qed.

Lemma profile_log_conserves (es : list profile_event) (this : SonicStreamWrapper) :
  concat (jsArrayToFloatVector <$> fst (profile_log es this))
    ++ speedProfile (snd (profile_log es this))
  = recorded (speedProfile this) (recordings es).
Proof.
  revert this. induction es as [|[time speed|] es IH]; intros this; simpl.
  - done.
  - specialize (IH (snd (recordSpeed time speed this))).
    destruct (profile_log es _) as [drained this']. simpl in *. by rewrite IH.
  - rewrite getSpeedProfile_drains.
    specialize (IH (set_speedProfile [] this)).
    destruct (profile_log es _) as [drained this']. simpl in IH. cbn [fst snd].
    rewrite fmap_cons, concat_cons, jsArray_of_vector, <- app_assoc, IH.
    symmetry. apply recorded_app.
Qed.

(** C6.  A drain returns exactly the (time, speed) pairs recorded since the
    previous drain, as a flat array, and empties the buffer: a second drain
    right after returns nothing ([undefined]); over any sequence of
    recordings and drains, the drained arrays followed by what is still
    buffered are the recorded pairs in order, each once. *)
Theorem drain_returns_each_pair_once :
  (forall (this : SonicStreamWrapper) (made : list (Z * float)),
     let after_previous_drain := snd (getSpeedProfile this) in
     let es := ((fun e => Recorded (fst e) (snd e)) <$> made) ++ [Drained; Drained] in
     fst (profile_log es after_previous_drain) =
     [floatVectorToJsArray (recorded [] made); undefined]) /\
  (forall (this : SonicStreamWrapper) (es : list profile_event),
     concat (jsArrayToFloatVector <$> fst (profile_log es this))
       ++ speedProfile (snd (profile_log es this))
     = recorded (speedProfile this) (recordings es)).
Proof.
  split; [|intros; apply profile_log_conserves].
  intros this made. rewrite getSpeedProfile_drains. simpl.
  assert (forall (o : SonicStreamWrapper) tail,
    profile_log (((fun e => Recorded (fst e) (snd e)) <$> made) ++ tail) o =
    profile_log tail (set_speedProfile (recorded (speedProfile o) made) o)) as Hrec.
  { induction made as [|[time speed] made IH]; intros o tail; simpl.
    - by rewrite set_speedProfile_same.
    - rewrite IH. done. }
  rewrite Hrec. simpl. rewrite !getSpeedProfile_drains. simpl. done.
Qed.

(** *** Setters *)

Lemma set_c_heap_same (w : world) : set_c_heap (c_heap w) w = w.
Proof. by destruct w. Qed.

Lemma shim_keeps_state (w : world) (format : string) stream factor :
  let w' :=
    snd (match stream with
         | Some p =>
             (let* userData := c_call (Some p) (fun s => (sonicIntGetUserData s, s)) in
              match userData with
              | Some _ => printf format factor
              | None => ret tt
              end)
         | None => ret tt
         end w) in
  c_heap w' = c_heap w /\ objects w' = objects w /\ streamMap w' = streamMap w.
Proof.
  destruct stream as [p|]; simpl; [|done].
  unfold bind, c_call. destruct (c_heap w !! p) as [s|] eqn:Hs; simpl; [|done].
  destruct (sonicIntGetUserData s); simpl; by rewrite insert_id.
Qed.

(** C1.  Neither placeholder export stores its argument: after
    [sonicEnableNonlinearSpeedup] and after
    [sonicSetDurationFeedbackStrength], every stream, every wrapper and the
    stream map are what they were; only [printf] has run. *)
Theorem nonlinear_setters_store_nothing (w : world) stream factor :
  (let w' := snd (sonicEnableNonlinearSpeedup stream factor w) in
   c_heap w' = c_heap w /\ objects w' = objects w /\ streamMap w' = streamMap w) /\
  (let w' := snd (sonicSetDurationFeedbackStrength stream factor w) in
   c_heap w' = c_heap w /\ objects w' = objects w /\ streamMap w' = streamMap w).
Proof. split; apply shim_keeps_state. Qed.

(** C5, as the code has it.  No setter validates its argument: on a live
    stream [setSpeed], [enableNonlinearSpeedup] and
    [setDurationFeedbackStrength] return normally for every float; the
    constructor raises exactly when [sonicCreateStream] returns NULL, and
    then a [runtime_error], whatever the sample rate and channel count. *)
Theorem setters_accept_every_value (w : world) this :
  consistent w -> is_Some (objects w !! this) ->
  (forall rate, fst (setSpeed this rate w) = Return tt) /\
  (forall factor, fst (enableNonlinearSpeedup this factor w) = Return tt) /\
  (forall factor, fst (setDurationFeedbackStrength this factor w) = Return tt) /\
  (forall sample_rate num_channels,
     match fst (SonicStreamWrapper_new sample_rate num_channels w) with
     | Return _ => is_Some (sonicCreateStream sample_rate num_channels)
     | Throw e =>
         sonicCreateStream sample_rate num_channels = None /\
         e = runtime_error "Failed to create Sonic stream: out of memory"
     end).
Proof.
  intros Hc [o Ho]. destruct (Hc this o Ho) as (p & Hp & [s Hs] & _).
  split; [|split; [|split]].
  - intros rate. unfold setSpeed, bind, deref, c_call. by rewrite Ho, Hp, Hs.
  - intros factor.
    unfold enableNonlinearSpeedup, sonicEnableNonlinearSpeedup, bind, deref, c_call.
    rewrite Ho. simpl. rewrite Hp. simpl. rewrite Hs.
    by destruct (sonicIntGetUserData s).
  - intros factor.
    unfold setDurationFeedbackStrength, sonicSetDurationFeedbackStrength, bind, deref, c_call.
    rewrite Ho. simpl. rewrite Hp. simpl. rewrite Hs.
    by destruct (sonicIntGetUserData s).
  - intros sample_rate num_channels. unfold SonicStreamWrapper_new.
    destruct (sonicCreateStream sample_rate num_channels); simpl; eauto.
Qed.

(** Whatever the engine, [computeTension] raises when
    [speedyComputeTension] returns 0, and returns the tension otherwise. *)
Lemma computeTension_follows_result (at_time : Z) (this : speedyStreamStruct) :
  let '(result, tension, this') := speedyComputeTension at_time this in
  computeTension at_time this =
  (if result =? 0
   then Throw (runtime_error
                 ("Insufficient data to compute tension at time "
                  +:+ pretty at_time))
   else Return tension, this').
Proof.
  unfold computeTension.
  destruct (speedyComputeTension at_time this) as [[result tension] this'].
  by destruct (result =? 0).
Qed.

(** C8.  The hysteresis constants are (K_past, K_future) = (8, 12), and
    (12, 8) when [MATCH_MATLAB] is defined; they do not depend on the stream
    and sum to 20; the Sonic wrapper reports the same K_future. *)
Theorem temporal_hysteresis_constants (MATCH_MATLAB : bool)
    (speedy : speedyStreamStruct) (sonic : SonicStreamWrapper) :
  (temporalHysteresisPast MATCH_MATLAB speedy,
   temporalHysteresisFuture MATCH_MATLAB speedy)
  = (if MATCH_MATLAB then (12, 8) else (8, 12)) /\
  temporalHysteresisPast MATCH_MATLAB speedy
  + temporalHysteresisFuture MATCH_MATLAB speedy = 20 /\
  getSpeedyTemporalHysteresisFuture MATCH_MATLAB sonic
  = temporalHysteresisFuture MATCH_MATLAB speedy.
Proof. by destruct MATCH_MATLAB. Qed.

(** C7, as the code has it.  Two wrappers created one after the other with
    the same arguments are distinct objects on distinct streams, both
    entered in the one [streamMap]; whatever calls are made on whatever
    objects, in whatever order, the results each of the two returns are
    those it would return on its own; so when the two receive the same
    calls, they return the same results. *)
Theorem streams_agree_under_interleaving (w0 w1 w2 : world)
    sample_rate num_channels a b :
  consistent w0 ->
  SonicStreamWrapper_new sample_rate num_channels w0 = (Return a, w1) ->
  SonicStreamWrapper_new sample_rate num_channels w1 = (Return b, w2) ->
  a <> b /\
  (exists pa pb, pa <> pb /\
     streamMap w2 !! pa = Some a /\ streamMap w2 !! pb = Some b) /\
  (exists l, forall t,
     results_of a (fst (run t w2)) = run_alone (calls_of a t) l /\
     results_of b (fst (run t w2)) = run_alone (calls_of b t) l) /\
  (forall t, calls_of a t = calls_of b t ->
     results_of a (fst (run t w2)) = results_of b (fst (run t w2))).
Proof.
  intros Hc0 Ha Hb.
  destruct (SonicStreamWrapper_new_view w0 w1 _ _ a Hc0 Ha)
    as (s & Hs & Hc1 & _ & Hva & _).
  destruct (SonicStreamWrapper_new_view w1 w2 _ _ b Hc1 Hb)
    as (s' & Hs' & Hc2 & Hfresh & Hvb & Hkeep).
  rewrite Hs in Hs'. injection Hs' as <-.
  assert (a <> b) as Hne.
  { intros ->. unfold view in Hva. by rewrite Hfresh in Hva. }
  rewrite <- (Hkeep a Hne) in Hva.
  set (l := {| alone_numChannels := num_channels; alone_sampleRate := sample_rate;
               alone_speedProfile := []; alone_stream := s |}) in *.
  assert (forall t,
    results_of a (fst (run t w2)) = run_alone (calls_of a t) l /\
    results_of b (fst (run t w2)) = run_alone (calls_of b t) l) as Halone.
  { intros t. split; by apply run_view. }
  split; [done|]. split; [|split; [by exists l|]].
  - destruct (view_inv w2 a _ Hva) as (oa & pa & sa & Hoa & Hpa & _).
    destruct (view_inv w2 b _ Hvb) as (ob & pb & sb & Hob & Hpb & _).
    destruct (Hc2 a oa Hoa) as (pa' & Hpa' & _ & Hma).
    destruct (Hc2 b ob Hob) as (pb' & Hpb' & _ & Hmb).
    rewrite Hpa in Hpa'. injection Hpa' as <-.
    rewrite Hpb in Hpb'. injection Hpb' as <-.
    exists pa, pb. split; [|done]. intros ->. rewrite Hma in Hmb. by injection Hmb.
  - intros t Heq. destruct (Halone t) as [-> ->]. by rewrite Heq.
Qed.

(** *** The life of the wrappers *)

Lemma vector_new_no_trap n msg : vector_new n <> Throw (Trap msg).
Proof. unfold vector_new, allocate. intros H. repeat case_match; congruence. Qed.

Lemma vector_resize_no_trap n vec msg : vector_resize n vec <> Throw (Trap msg).
Proof. unfold vector_resize, allocate. intros H. repeat case_match; congruence. Qed.

Lemma invoke_alone_no_trap c l msg : fst (invoke_alone c l) <> Throw (Trap msg).
Proof.
  destruct c; simpl; try (repeat case_match; simpl; discriminate).
  pose proof (vector_new_no_trap
                (to_size_t (int_times buffer_size (alone_numChannels l))) msg) as Hn.
  destruct (vector_new _) as [output|e]; simpl; [|congruence].
  destruct (sonicReadFloatFromStream output buffer_size (alone_stream l))
    as [[samples_read output'] s'].
  destruct (samples_read <=? 0); simpl; [discriminate|].
  pose proof (vector_resize_no_trap
                (to_size_t (int_times samples_read (alone_numChannels l)))
                output' msg) as Hr.
  destruct (vector_resize _ output') as [output''|e]; simpl; [discriminate|congruence].
Qed.

Lemma invoke_tidy (w : world) x c :
  tidy w ->
  tidy (snd (invoke x c w)) /\
  forall msg, fst (invoke x c w) <> Throw (Trap msg).
Proof.
  intros (Hc & Hmap & Hheap).
  destruct (objects w !! x) as [o|] eqn:Ho.
  - destruct (Hc x o Ho) as (p & Hp & [s Hs] & Hx).
    destruct (invoke_agrees w x c o p s Hx Ho Hp Hs)
      as (o' & s' & Hp' & Hr & _ & Ht).
    destruct (touches_only_view w _ x p o o' s' Hc Ho Hp Hp' Ht) as (Hc' & _ & _).
    destruct Ht as (Hm' & Ho' & Hh').
    split; [|intros msg; rewrite Hr; apply invoke_alone_no_trap].
    split; [done|]. split.
    + intros q y Hq. rewrite Hm' in Hq.
      destruct (Hmap q y Hq) as (oy & Hoy & Hsq).
      rewrite Ho'. destruct (decide (y = x)) as [->|Hne].
      * rewrite lookup_insert_eq. exists o'. split; [done|].
        rewrite Ho in Hoy. injection Hoy as <-. congruence.
      * rewrite lookup_insert_ne by done. eauto.
    + intros q Hq. rewrite Hm'. rewrite Hh' in Hq.
      destruct (decide (q = p)) as [->|Hne]; [by rewrite Hx|].
      rewrite lookup_insert_ne in Hq by done. by apply Hheap.
  - rewrite invoke_deleted by done. simpl. split; [done|discriminate].
Qed.

Lemma no_stale_entry (w : world) :
  tidy w -> streamMap w !! fresh (dom (c_heap w)) = None.
Proof.
  intros (Hc & Hmap & _).
  destruct (streamMap w !! fresh (dom (c_heap w))) as [x|] eqn:Hx; [|done].
  destruct (Hmap _ x Hx) as (o & Ho & Hp).
  destruct (Hc x o Ho) as (q & Hq & Hlive & _).
  rewrite Hp in Hq. injection Hq as <-.
  apply elem_of_dom in Hlive. by apply is_fresh in Hlive.
Qed.

Lemma SonicStreamWrapper_new_tidy (w : world) sample_rate num_channels :
  tidy w ->
  tidy (snd (SonicStreamWrapper_new sample_rate num_channels w)) /\
  forall msg,
    fst (SonicStreamWrapper_new sample_rate num_channels w) <> Throw (Trap msg).
Proof.
  intros Ht. pose proof Ht as (Hc & Hmap & Hheap).
  destruct (SonicStreamWrapper_new sample_rate num_channels w) as [[a|e] w'] eqn:Hnew.
  - destruct (SonicStreamWrapper_new_view w w' _ _ a Hc Hnew)
      as (s & Hs & Hc' & Ha & _ & _).
    split; [|done]. unfold SonicStreamWrapper_new in Hnew. rewrite Hs in Hnew.
    injection Hnew as Ha' <-. simpl. split; [by rewrite Ha' in *|]. split.
    + intros q y Hq. simpl in *.
      destruct (decide (q = fresh (dom (c_heap w)))) as [->|Hne].
      * rewrite lookup_insert_eq in Hq. injection Hq as <-.
        rewrite lookup_insert_eq. eauto.
      * rewrite lookup_insert_ne in Hq by done.
        destruct (Hmap q y Hq) as (oy & Hoy & Hsq).
        rewrite lookup_insert_ne; [eauto|]. intros <-.
        rewrite Ha' in Hoy. by rewrite Ha in Hoy.
    + intros q Hq. simpl in *.
      destruct (decide (q = fresh (dom (c_heap w)))) as [->|Hne];
        [by rewrite lookup_insert_eq|].
      rewrite lookup_insert_ne in Hq by done.
      rewrite lookup_insert_ne by done. by apply Hheap.
  - unfold SonicStreamWrapper_new in Hnew.
    destruct (sonicCreateStream sample_rate num_channels); [done|].
    injection Hnew as <- <-. done.
Qed.

Lemma SonicStreamWrapper_delete_live (w : world) this o p :
  objects w !! this = Some o -> stream o = Some p ->
  SonicStreamWrapper_delete this w =
  (Return tt,
   {| c_heap := delete p (c_heap w); objects := delete this (objects w);
      streamMap := delete p (streamMap w); stdout := stdout w |}).
Proof.
  intros Ho Hp. unfold SonicStreamWrapper_delete, bind, modify.
  by rewrite Ho, Hp.
Qed.

Lemma SonicStreamWrapper_delete_tidy (w : world) this :
  tidy w ->
  tidy (snd (SonicStreamWrapper_delete this w)) /\
  forall msg, fst (SonicStreamWrapper_delete this w) <> Throw (Trap msg).
Proof.
  intros Ht. pose proof Ht as (Hc & Hmap & Hheap).
  destruct (objects w !! this) as [o|] eqn:Ho.
  - destruct (Hc this o Ho) as (p & Hp & _ & Hthis).
    rewrite (SonicStreamWrapper_delete_live w this o p Ho Hp).
    split; [|done]. simpl. split; [|split].
    + intros y oy Hy. simpl in *.
      apply lookup_delete_Some in Hy as [Hne Hy].
      destruct (Hc y oy Hy) as (q & Hq & Hlive & Hy').
      assert (q <> p) by (intros ->; congruence).
      exists q. by rewrite !lookup_delete_ne.
    + intros q y Hq. simpl in *.
      apply lookup_delete_Some in Hq as [Hne Hq].
      destruct (Hmap q y Hq) as (oy & Hoy & Hsq).
      exists oy. split; [|done].
      rewrite lookup_delete_ne; [done|]. intros <-. congruence.
    + intros q Hq. simpl in *.
      destruct (decide (q = p)) as [->|Hne];
        [rewrite lookup_delete_eq in Hq; by destruct Hq|].
      rewrite lookup_delete_ne in Hq by done.
      rewrite lookup_delete_ne by done. by apply Hheap.
  - unfold SonicStreamWrapper_delete. by rewrite Ho.
Qed.

Lemma perform_tidy (w : world) o :
  tidy w ->
  tidy (snd (perform o w)) /\ forall msg, fst (perform o w) <> Throw (Trap msg).
Proof.
  intros Ht. destruct o as [sample_rate num_channels|this|this c];
    unfold perform, bind, ret.
  - destruct (SonicStreamWrapper_new_tidy w sample_rate num_channels Ht) as [H1 H2].
    destruct (SonicStreamWrapper_new sample_rate num_channels w) as [[a|e] w'];
      simpl in *; [done|]. split; [done|]. intros msg [= ->]. by eapply H2.
  - destruct (SonicStreamWrapper_delete_tidy w this Ht) as [H1 H2].
    destruct (SonicStreamWrapper_delete this w) as [[[]|e] w'];
      simpl in *; [done|]. split; [done|]. intros msg [= ->]. by eapply H2.
  - destruct (invoke_tidy w this c Ht) as [H1 H2].
    destruct (invoke this c w) as [[r|e] w'];
      simpl in *; [done|]. split; [done|]. intros msg [= ->]. by eapply H2.
Qed.

Lemma life_tidy (ops : list op) (w : world) :
  tidy w ->
  tidy (snd (life ops w)) /\
  Forall (fun r => forall msg, r <> Throw (Trap msg)) (fst (life ops w)).
Proof.
  revert w. induction ops as [|o ops IH]; intros w Ht; simpl; [done|].
  destruct (perform_tidy w o Ht) as [H1 H2].
  destruct (perform o w) as [r w']. simpl in *.
  destruct (IH w' H1) as [H3 H4].
  destruct (life ops w') as [log w'']. simpl in *.
  split; [done|]. by constructor.
Qed.

Lemma empty_process_tidy : tidy empty_process.
Proof.
  split; [|split].
  - intros x o Hx. simpl in Hx. by rewrite lookup_empty in Hx.
  - intros p x Hp. simpl in Hp. by rewrite lookup_empty in Hp.
  - intros p [s Hp]. simpl in Hp. by rewrite lookup_empty in Hp.
Qed.

(** X6.  No call reaches a dead stream.  Whatever wrappers JavaScript
    constructs, calls and deletes, in whatever order, starting from a
    process with none: no call hands a null or destroyed [sonicStream] to
    the C engine, and no speed callback is routed to a deleted wrapper.
    After every such sequence each live wrapper owns a live stream that
    [streamMap] sends back to it, every entry of [streamMap] belongs to a
    live wrapper, and every live stream is owned. *)
Theorem no_call_reaches_a_dead_stream (ops : list op) :
  tidy (snd (life ops empty_process)) /\
  Forall (fun r => forall msg, r <> Throw (Trap msg))
    (fst (life ops empty_process)).
Proof. apply life_tidy, empty_process_tidy. Qed.


(** X8.  Constructing a wrapper and deleting it again leaves no trace: the
    C heap, the set of wrappers and [streamMap] are back to what they
    were. *)
Theorem construct_then_delete_leaves_no_trace (w w1 : world)
    sample_rate num_channels a :
  tidy w ->
  SonicStreamWrapper_new sample_rate num_channels w = (Return a, w1) ->
  SonicStreamWrapper_delete a w1 = (Return tt, w).
Proof.
  intros Ht Hnew. pose proof (no_stale_entry w Ht) as Hstale.
  unfold SonicStreamWrapper_new in Hnew.
  destruct (sonicCreateStream sample_rate num_channels) as [s|]; [|done].
  injection Hnew as <- <-.
  erewrite SonicStreamWrapper_delete_live;
    [|simpl; apply lookup_insert_eq|reflexivity].
  simpl. f_equal.
  assert (objects w !! fresh (dom (objects w)) = None) as Ha
    by (apply not_elem_of_dom, is_fresh).
  assert (c_heap w !! fresh (dom (c_heap w)) = None) as Hp
    by (apply not_elem_of_dom, is_fresh).
  rewrite !delete_insert_id by done.
  by destruct w.
Qed.


(** X10.  The speed callbacks of a write land in the writer's own profile.
    When a write through the pointer entry makes the engine invoke the
    speed callback, [streamMap] routes every invocation back to the
    wrapper that was called: its profile grows by the pairs
    (float(time), speed) in the order made, its stream is the one the
    engine left, and every other wrapper and stream is as before. *)
Theorem callbacks_land_in_the_writers_profile (w : world) this l
    memory sample_count :
  consistent w -> view w this = Some l ->
  let '(written, made, s') :=
    sonicWriteFloatToStream memory sample_count (alone_stream l) in
  let w' := snd (writeFloatToStreamPtr this memory sample_count w) in
  fst (writeFloatToStreamPtr this memory sample_count w) = Return written /\
  view w' this
  = Some (with_profile (recorded (alone_speedProfile l) made) (with_stream s' l)) /\
  forall y, y <> this -> view w' y = view w y.
Proof.
  intros Hc Hv.
  destruct (view_inv w this l Hv) as (o & p & s & Ho & Hp & Hs & ->).
  destruct (Hc this o Ho) as (p0 & Hp0 & _ & Hmap).
  rewrite Hp in Hp0. injection Hp0 as <-. simpl.
  unfold writeFloatToStreamPtr, bind, deref, c_call. rewrite Ho. simpl.
  rewrite Hp, Hs.
  destruct (sonicWriteFloatToStream memory sample_count s) as [[written made] s'].
  erewrite (callbacks_recorded p this o); [|done..]. simpl.
  split; [done|].
  eapply (touches_only_view w _ this p o
            (set_speedProfile (recorded (speedProfile o) made) o) s' Hc Ho Hp Hp).
  touches.
Qed.

End Engine.

(** * The engine as the specification describes it

    The wrappers are run here against the two engine functions whose
    result the specification pins down: [sonicReadFloatFromStream] and
    [speedyComputeTension].  The rest of the engine is a pass-through, there
    only so that the wrappers can be run on concrete worlds. *)

Module Model.

(** The state of a sonic stream: the channel count, the speed, the output
    ring (interleaved), whether the speed callback is registered, and the
    number of writes so far. *)
Record sonicStreamStruct : Type := {
  channels : Z;
  speed : float;
  outputRing : list float;
  callback : bool;
  writes : Z
}.

Definition set_outputRing (ring : list float) (s : sonicStreamStruct)
  : sonicStreamStruct :=
  {| channels := channels s; speed := speed s; outputRing := ring;
     callback := callback s; writes := writes s |}.

(** Modelled from the spec: [sonicSamplesAvailable], of soniclib.c.  The
    samples per channel held by the output ring. *)
Definition sonicSamplesAvailable (s : sonicStreamStruct) : Z :=
  Z.of_nat (length (outputRing s)) / channels s.

(** Modelled from the spec: [sonicReadFloatFromStream], of soniclib.c.
    "read_float drains the output ring up to max samples per channel and
    returns the count produced (0 when dry)."  The samples land at the
    start of the caller's buffer. *)
Definition sonicReadFloatFromStream (buffer : list float) (maxSamples : Z)
    (s : sonicStreamStruct) : Z * list float * sonicStreamStruct :=
  let count := Z.max 0 (Z.min (sonicSamplesAvailable s) maxSamples) in
  let k := Z.to_nat (count * channels s) in
  (count, take k (outputRing s) ++ drop k buffer,
   set_outputRing (drop k (outputRing s)) s).

(** The pass-through: creation always succeeds, the speed is stored as
    given, a write moves its samples to the output ring and reports one
    callback if one is registered, a flush does nothing, the rate is
    ignored. *)
Definition sonicSetSpeed (rate : float) (s : sonicStreamStruct)
  : sonicStreamStruct :=
  {| channels := channels s; speed := rate; outputRing := outputRing s;
     callback := callback s; writes := writes s |}.

Definition sonicGetSpeed (s : sonicStreamStruct) : float := speed s.

Definition sonicCreateStream (sampleRate channels : Z)
  : option sonicStreamStruct :=
  Some {| channels := channels; speed := 1%float; outputRing := [];
          callback := false; writes := 0 |}.

Definition sonicWriteFloatToStream (samples : list float) (numSamples : Z)
    (s : sonicStreamStruct) : Z * list (Z * float) * sonicStreamStruct :=
  (numSamples,
   if callback s then [(writes s, speed s)] else [],
   {| channels := channels s; speed := speed s;
      outputRing := outputRing s ++ samples;
      callback := callback s; writes := writes s + 1 |}).

Definition sonicFlushStream (s : sonicStreamStruct)
  : Z * list (Z * float) * sonicStreamStruct := (1, [], s).

Definition sonicSetRate (rate : float) (s : sonicStreamStruct)
  : sonicStreamStruct := s.

Definition sonicSpeedCallback (s : sonicStreamStruct) : sonicStreamStruct :=
  {| channels := channels s; speed := speed s;
     outputRing := outputRing s; callback := true; writes := writes s |}.

Definition sonicIntGetUserData (s : sonicStreamStruct) : option positive :=
  Some 1%positive.

(** [static_cast<float>(int)]: the nearest float, ties to even.  A float
    has 24 significant bits: an [int] below 2^24 in magnitude converts
    exactly, a larger one is rounded at the bits below its leading 24. *)
Definition round_to_24_bits (n : Z) : Z :=
  let shift := Z.log2 n - 23 in
  if shift <=? 0 then n
  else
    let q := Z.shiftr n shift in
    let r := n - Z.shiftl q shift in
    let half := Z.shiftl 1 (shift - 1) in
    let q' := if (half <? r) || ((r =? half) && Z.odd q) then q + 1 else q in
    Z.shiftl q' shift.

Definition static_cast_float (time : Z) : float :=
  if time <? 0
  then PrimFloat.opp (PrimFloat.of_uint63 (Uint63.of_Z (round_to_24_bits (- time))))
  else PrimFloat.of_uint63 (Uint63.of_Z (round_to_24_bits time)).

(** The C++ heap of the examples supplies any block below 2^31 bytes. *)
Definition heap_supplies (bytes : Z) : bool := bytes <? 2 ^ 31.

(** The state of a speedy stream, as far as [try_tension] goes: the index
    of the newest frame, and the tension of every frame (finalised or
    not). *)
Record speedyStreamStruct : Type := {
  current_frame : Z;
  tension_of : Z -> float
}.

(** Modelled from the spec: [speedyComputeTension], of speedy.c.
    "Some(t) is returned only once f + K_future <= current_frame"; before
    that the call fails: it returns 0 and delivers no tension. *)
Definition speedyComputeTension (MATCH_MATLAB : bool) (at_time : Z)
    (s : speedyStreamStruct) : Z * float * speedyStreamStruct :=
  if at_time + temporalHysteresisFuture MATCH_MATLAB s <=? current_frame s
  then (1, tension_of s at_time, s)
  else (0, 0%float, s).

(** The wrappers, linked against this engine. *)
Definition world : Type := @Bindings.world sonicStreamStruct.

Definition invoke : positive -> call -> M world result :=
  Bindings.invoke sonicWriteFloatToStream sonicReadFloatFromStream
    sonicFlushStream sonicSetSpeed sonicGetSpeed sonicSetRate
    sonicSamplesAvailable sonicSpeedCallback sonicIntGetUserData
    static_cast_float heap_supplies.

Definition run : list (positive * call) -> world
    -> list (positive * outcome result) * world :=
  Bindings.run sonicWriteFloatToStream sonicReadFloatFromStream
    sonicFlushStream sonicSetSpeed sonicGetSpeed sonicSetRate
    sonicSamplesAvailable sonicSpeedCallback sonicIntGetUserData
    static_cast_float heap_supplies.

Definition run_alone : list call -> alone -> list (outcome result) :=
  Bindings.run_alone sonicWriteFloatToStream sonicReadFloatFromStream
    sonicFlushStream sonicSetSpeed sonicGetSpeed sonicSetRate
    sonicSamplesAvailable sonicSpeedCallback static_cast_float heap_supplies.

(** A process in which nothing has been created yet. *)
Definition start : world :=
  {| c_heap := ∅; objects := ∅; streamMap := ∅; stdout := [] |}.

(** The process after [new SonicStream(22050, 1)], twice. *)
Definition one_stream : world :=
  snd (SonicStreamWrapper_new sonicCreateStream 22050 1 start).

Definition two_streams : world :=
  snd (SonicStreamWrapper_new sonicCreateStream 22050 1 one_stream).


Definition dry_stream : sonicStreamStruct :=
  {| channels := 1; speed := 1%float; outputRing := [];
     callback := false; writes := 0 |}.



Definition no_frames_yet : speedyStreamStruct :=
  {| current_frame := 0; tension_of := fun _ => 0.5%float |}.

(** *** Reading *)


Lemma resize_prefix (k : nat) (ring rest : list float) :
  (k <= length ring)%nat ->
  resize (Z.of_nat k) (take k ring ++ rest) = take k ring.
Proof.
  intros Hk. unfold resize. rewrite Nat2Z.id.
  rewrite take_app_le by (rewrite length_take; lia).
  rewrite take_take, Nat.min_id.
  rewrite length_app, length_take.
  replace (k - (k `min` length ring + length rest))%nat with 0%nat by lia.
  simpl. by rewrite app_nil_r.
Qed.




(** *** Tension *)

(** C3, as the code has it.  A tension query made before the hysteresis
    window around the frame is full is refused by [speedyComputeTension],
    and [computeTension] raises that to the caller as a [runtime_error]
    naming the frame. *)
Theorem computeTension_throws_before_window_full (MATCH_MATLAB : bool)
    (s : speedyStreamStruct) (at_time : Z) :
  current_frame s < at_time + temporalHysteresisFuture MATCH_MATLAB s ->
  computeTension (speedyComputeTension MATCH_MATLAB) at_time s =
  (Throw (runtime_error
            ("Insufficient data to compute tension at time " +:+ pretty at_time)),
   s).
Proof.
  intros Hearly.
  pose proof (computeTension_follows_result (speedyComputeTension MATCH_MATLAB)
                at_time s) as Hresult.
  unfold speedyComputeTension in Hresult.
  destruct (Z.leb_spec (at_time + temporalHysteresisFuture MATCH_MATLAB s)
              (current_frame s)); [lia|exact Hresult].
Qed.

(** *** The wrappers on concrete worlds *)

Lemma start_consistent : consistent start.
Proof. intros x o Hx. simpl in Hx. by rewrite lookup_empty in Hx. Qed.

Lemma one_stream_spec :
  SonicStreamWrapper_new sonicCreateStream 22050 1 start = (Return 1%positive, one_stream).
Proof. reflexivity. Qed.

Lemma two_streams_spec :
  SonicStreamWrapper_new sonicCreateStream 22050 1 one_stream
  = (Return 2%positive, two_streams).
Proof. vm_compute. reflexivity. Qed.

Lemma one_stream_consistent : consistent one_stream.
Proof.
  destruct (SonicStreamWrapper_new_view sonicCreateStream start one_stream
              22050 1 1%positive start_consistent one_stream_spec)
    as (_ & _ & H & _).
  exact H.
Qed.

(** A query at frame 0 of a stream that has seen no frame raises. *)
Lemma computeTension_raises_at_frame_0 :
  fst (computeTension (speedyComputeTension false) 0 no_frames_yet)
  = Throw (runtime_error "Insufficient data to compute tension at time 0").
Proof. vm_compute. reflexivity. Qed.

Lemma computeTension_throws_at_frame_5 :
  current_frame no_frames_yet < 5 + temporalHysteresisFuture false no_frames_yet /\
  computeTension (speedyComputeTension false) 5 no_frames_yet =
  (Throw (runtime_error
            ("Insufficient data to compute tension at time " +:+ pretty 5)),
   no_frames_yet).
Proof.
  split; [reflexivity|].
  apply (computeTension_throws_before_window_full false no_frames_yet 5).
  reflexivity.
Defined.


(** Two channels and 2^30 samples: the 32-bit product wraps to -2^31, which
    as a [size_t] is 2^31, again more than a vector can hold. *)
Lemma a_wrapped_product_is_refused :
  int_times (2 ^ 30) 2 = - 2 ^ 31 /\
  to_size_t (int_times (2 ^ 30) 2) = 2 ^ 31 /\
  vector_new heap_supplies (to_size_t (int_times (2 ^ 30) 2))
  = Throw (length_error "vector").
Proof. vm_compute. repeat split. Qed.

(** A frame index above 2^24 is rounded by the cast. *)
Lemma static_cast_float_rounds :
  static_cast_float 7 = 7%float /\
  static_cast_float 16777217 = 16777216%float /\
  static_cast_float 16777219 = 16777220%float.
Proof. vm_compute. repeat split. Qed.


(** The nonlinear factor handed to the wrapper reaches [printf] and nothing
    else: the stream and the wrapper are what they were. *)
Lemma nonlinear_factor_is_only_logged :
  snd (enableNonlinearSpeedup sonicIntGetUserData 1 0 one_stream)
  = {| c_heap := c_heap one_stream; objects := objects one_stream;
       streamMap := streamMap one_stream;
       stdout := [("Setting nonlinear speedup factor to %f\n", 0%float)] |}.
Proof. vm_compute. reflexivity. Qed.

(** A speed of 100, a nonlinear factor of 2 and a feedback strength of 0.75
    are out of range, and accepted. *)
Lemma out_of_range_values_are_accepted :
  (PrimFloat.ltb 4 100 = true /\
   fst (setSpeed sonicSetSpeed 1 100 one_stream) = Return tt) /\
  (PrimFloat.ltb 1 2 = true /\
   fst (enableNonlinearSpeedup sonicIntGetUserData 1 2 one_stream) = Return tt) /\
  (PrimFloat.ltb 0.5 0.75 = true /\
   fst (setDurationFeedbackStrength sonicIntGetUserData 1 0.75 one_stream)
   = Return tt).
Proof. vm_compute. repeat split. Qed.

Lemma setters_accept_every_value_on_one_stream :
  (consistent one_stream /\ is_Some (objects one_stream !! 1%positive)) /\
  ((forall rate, fst (setSpeed sonicSetSpeed 1 rate one_stream) = Return tt) /\
   (forall factor,
      fst (enableNonlinearSpeedup sonicIntGetUserData 1 factor one_stream)
      = Return tt) /\
   (forall factor,
      fst (setDurationFeedbackStrength sonicIntGetUserData 1 factor one_stream)
      = Return tt) /\
   (forall sample_rate num_channels,
      match fst (SonicStreamWrapper_new sonicCreateStream sample_rate
                   num_channels one_stream) with
      | Return _ => is_Some (sonicCreateStream sample_rate num_channels)
      | Throw e =>
          sonicCreateStream sample_rate num_channels = None /\
          e = runtime_error "Failed to create Sonic stream: out of memory"
      end)).
Proof.
  assert (is_Some (objects one_stream !! 1%positive)) as Hlive
    by (vm_compute; eauto).
  split; [split; [exact one_stream_consistent|exact Hlive]|].
  exact (setters_accept_every_value sonicCreateStream sonicSetSpeed
           sonicIntGetUserData one_stream 1 one_stream_consistent Hlive).
Defined.

(** The second constructor writes the map that holds the first stream's
    entry, and the first stream's callback reads that map. *)
Lemma streamMap_is_shared :
  streamMap one_stream !! 2%positive = None /\
  streamMap two_streams !! 2%positive = Some 2%positive /\
  streamMap two_streams !! 1%positive = Some 1%positive /\
  speedProfile <$>
    objects (snd (speedCallbackStatic static_cast_float 1 7 2 two_streams))
      !! 1%positive = Some [7; 2]%float /\
  speedProfile <$>
    objects (snd (speedCallbackStatic static_cast_float 1 7 2
                    (set_streamMap ∅ two_streams)))
      !! 1%positive = Some [].
Proof. vm_compute. repeat split. Qed.

Lemma two_streams_agree :
  (consistent start /\
   SonicStreamWrapper_new sonicCreateStream 22050 1 start
   = (Return 1%positive, one_stream) /\
   SonicStreamWrapper_new sonicCreateStream 22050 1 one_stream
   = (Return 2%positive, two_streams)) /\
  (1%positive <> 2%positive /\
   (exists pa pb, pa <> pb /\
      streamMap two_streams !! pa = Some 1%positive /\
      streamMap two_streams !! pb = Some 2%positive) /\
   (exists l, forall t,
      results_of 1 (fst (run t two_streams)) = run_alone (calls_of 1 t) l /\
      results_of 2 (fst (run t two_streams)) = run_alone (calls_of 2 t) l) /\
   (forall t, calls_of 1 t = calls_of 2 t ->
      results_of 1 (fst (run t two_streams))
      = results_of 2 (fst (run t two_streams)))).
Proof.
  split; [split; [exact start_consistent|split; [exact one_stream_spec|exact two_streams_spec]]|].
  exact (streams_agree_under_interleaving sonicCreateStream
           sonicWriteFloatToStream sonicReadFloatFromStream sonicFlushStream
           sonicSetSpeed sonicGetSpeed sonicSetRate sonicSamplesAvailable
           sonicSpeedCallback sonicIntGetUserData static_cast_float heap_supplies
           start one_stream two_streams 22050 1 1 2
           start_consistent one_stream_spec two_streams_spec).
Defined.

(** *** The life of the wrappers, on concrete worlds *)

Lemma two_streams_consistent : consistent two_streams.
Proof.
  destruct (SonicStreamWrapper_new_view sonicCreateStream one_stream two_streams
              22050 1 2%positive one_stream_consistent two_streams_spec)
    as (_ & _ & H & _).
  exact H.
Qed.


Lemma construct_then_delete_leaves_no_trace_at_the_start :
  (tidy start /\
   SonicStreamWrapper_new sonicCreateStream 22050 1 start
   = (Return 1%positive, one_stream)) /\
  SonicStreamWrapper_delete 1 one_stream = (Return tt, start).
Proof.
  split; [split; [exact empty_process_tidy|exact one_stream_spec]|].
  exact (construct_then_delete_leaves_no_trace sonicCreateStream start one_stream
           22050 1 1 empty_process_tidy one_stream_spec).
Defined.


(** Two streams, the first with its speed callback registered. *)
Definition listening : world :=
  snd (invoke 1 SetupSpeedCallback two_streams).

Definition first_listening : alone :=
  {| alone_numChannels := 1; alone_sampleRate := 22050;
     alone_speedProfile := [];
     alone_stream := {| channels := 1; speed := 1%float; outputRing := [];
                        callback := true; writes := 0 |} |}.

Lemma listening_consistent : consistent listening.
Proof.
  destruct (consistent_live two_streams 1 two_streams_consistent) as [l Hl];
    [vm_compute; eauto|].
  destruct (invoke_view sonicWriteFloatToStream sonicReadFloatFromStream
              sonicFlushStream sonicSetSpeed sonicGetSpeed sonicSetRate
              sonicSamplesAvailable sonicSpeedCallback sonicIntGetUserData
              static_cast_float heap_supplies two_streams 1 SetupSpeedCallback l
              two_streams_consistent Hl) as (_ & H & _).
  exact H.
Qed.

Lemma callbacks_land_in_the_writers_profile_of_a_listening_stream :
  (consistent listening /\ view listening 1 = Some first_listening) /\
  (let '(written, made, s') :=
     sonicWriteFloatToStream [1; 2]%float 2 (alone_stream first_listening) in
   let w' :=
     snd (writeFloatToStreamPtr sonicWriteFloatToStream static_cast_float 1
            [1; 2]%float 2 listening) in
   fst (writeFloatToStreamPtr sonicWriteFloatToStream static_cast_float 1
          [1; 2]%float 2 listening) = Return written /\
   view w' 1
   = Some (with_profile
             (recorded static_cast_float (alone_speedProfile first_listening) made)
             (with_stream s' first_listening)) /\
   forall y, y <> 1%positive -> view w' y = view listening y).
Proof.
  assert (view listening 1 = Some first_listening) as Hv
    by (vm_compute; reflexivity).
  split; [split; [exact listening_consistent|exact Hv]|].
  exact (callbacks_land_in_the_writers_profile sonicWriteFloatToStream
           static_cast_float listening 1 first_listening [1; 2]%float 2
           listening_consistent Hv).
Defined.

(** The callback made by that write reaches the first wrapper's profile as
    the pair (0, 1). *)
Lemma the_first_callback_is_recorded :
  speedProfile <$>
    objects (snd (writeFloatToStreamPtr sonicWriteFloatToStream static_cast_float
                    1 [1; 2]%float 2 listening)) !! 1%positive
  = Some [0; 1]%float.
Proof. vm_compute. reflexivity. Qed.

End Model.
End Bindings.

(** * speedy-wasm-wrapper.js

    [SpeedyWasmWrapper] drives the C exports of the module through
    [cwrap]: it owns one stream and two buffers in the WASM heap.  The
    exports and the heap belong to the module instance and enter as
    section variables; every call of an export is recorded, in order, with
    its arguments and what it returned. *)

Module Wrapper.

(** What a method can throw: [new Error(message)], or an error raised by
    the JavaScript engine. *)
Inductive thrown : Type :=
  | Error (message : string)
  | Native (e : exn).

Inductive completion (A : Type) : Type :=
  | Normal (a : A)
  | Abrupt (t : thrown).
Arguments Normal {A} a.
Arguments Abrupt {A} t.

Inductive api_call : Type :=
  | CreateStream (sampleRate numChannels returned : Z)
  | DestroyStream (stream : Z)
  | WriteFloat (stream buffer samples returned : Z)
  | ReadFloat (stream buffer maxSamples returned : Z)
  | Flush (stream returned : Z)
  | SetSpeed (stream : Z) (speed : float)
  | EnableNonlinear (stream : Z) (factor : float)
  | SetDurationFeedback (stream : Z) (strength : float)
  | Malloc (bytes returned : Z)
  | Free (ptr : Z).

(** A pointer field holds [null] or a number; [null] and 0 are falsy, and
    [null] handed to an export as a number is 0. *)
Definition truthy (p : option Z) : bool :=
  match p with
  | Some n => negb (n =? 0)
  | None => false
  end.

Definition number (p : option Z) : Z := default 0 p.

(** [target.set(src, offset)] on typed arrays. *)
Definition typed_array_set (target src : list float) (offset : Z)
  : completion (list float) :=
  if Z.of_nat (length target) <? offset + Z.of_nat (length src)
  then Abrupt (Native (RangeError "offset is out of bounds"))
  else Normal (take (Z.to_nat offset) target ++ src
               ++ drop (Z.to_nat offset + length src) target).

(** [for (const chunk of outputChunks) { finalOutput.set(chunk, offset);
    offset += chunk.length; }] *)
Fixpoint concatenate (outputChunks : list (list float))
    (finalOutput : list float) (offset : Z) : completion (list float) :=
  match outputChunks with
  | [] => Normal finalOutput
  | chunk :: rest =>
      match typed_array_set finalOutput chunk offset with
      | Normal finalOutput' =>
          concatenate rest finalOutput' (offset + Z.of_nat (length chunk))
      | Abrupt t => Abrupt t
      end
  end.

(** The streams created and not destroyed, and the blocks allocated and
    not freed, by a sequence of calls; a failed creation or allocation
    returns 0 and hands out nothing. *)
Fixpoint remove_first (p : Z) (live : list Z) : list Z :=
  match live with
  | [] => []
  | q :: live' => if q =? p then live' else q :: remove_first p live'
  end.

Definition live_streams (calls : list api_call) : list Z :=
  foldl (fun live c =>
           match c with
           | CreateStream _ _ returned =>
               if returned =? 0 then live else live ++ [returned]
           | DestroyStream stream => remove_first stream live
           | _ => live
           end) [] calls.

Definition live_blocks (calls : list api_call) : list Z :=
  foldl (fun live c =>
           match c with
           | Malloc _ returned =>
               if returned =? 0 then live else live ++ [returned]
           | Free ptr => remove_first ptr live
           | _ => live
           end) [] calls.

Section Api.

(** The state of the module instance, and its exports as [cwrap] binds
    them.  [HEAPF32 m a] is the float at byte address [a]. *)
Context {Mo : Type}.

Variable sonicIntCreateStream : Z -> Z -> Mo -> Z * Mo.
Variable sonicIntDestroyStream : Z -> Mo -> Mo.
Variable sonicIntWriteFloatToStream : Z -> Z -> Z -> Mo -> Z * Mo.
Variable sonicIntReadFloatFromStream : Z -> Z -> Z -> Mo -> Z * Mo.
Variable sonicIntFlushStream : Z -> Mo -> Z * Mo.
Variable sonicIntSetSpeed : Z -> float -> Mo -> Mo.
Variable sonicEnableNonlinearSpeedup : Z -> float -> Mo -> Mo.
Variable sonicSetDurationFeedbackStrength : Z -> float -> Mo -> Mo.
Variable _malloc : Z -> Mo -> Z * Mo.
Variable _free : Z -> Mo -> Mo.
Variable HEAPF32 : Mo -> Z -> float.
Variable HEAPF32_store : Z -> float -> Mo -> Mo.

(** The fields of the wrapper.  [_wasmApi] is assigned together with
    [_module], in [init], and nowhere else: one field stands for both.
    [calls] and [console] are what the wrapper did to its surroundings. *)
Record SpeedyWasmWrapper : Type := {
  _module : option Mo;
  _streamPtr : option Z;
  _inputBufferPtr : option Z;
  _outputBufferPtr : option Z;
  _inputBufferSize : Z;
  _outputBufferSize : Z;
  sampleRate : Z;
  numChannels : Z;
  calls : list api_call;
  console : list string
}.

Definition set_module (m : option Mo) (this : SpeedyWasmWrapper)
  : SpeedyWasmWrapper :=
  {| _module := m; _streamPtr := _streamPtr this;
     _inputBufferPtr := _inputBufferPtr this;
     _outputBufferPtr := _outputBufferPtr this;
     _inputBufferSize := _inputBufferSize this;
     _outputBufferSize := _outputBufferSize this;
     sampleRate := sampleRate this; numChannels := numChannels this;
     calls := calls this; console := console this |}.

Definition set_streamPtr (p : option Z) (this : SpeedyWasmWrapper)
  : SpeedyWasmWrapper :=
  {| _module := _module this; _streamPtr := p;
     _inputBufferPtr := _inputBufferPtr this;
     _outputBufferPtr := _outputBufferPtr this;
     _inputBufferSize := _inputBufferSize this;
     _outputBufferSize := _outputBufferSize this;
     sampleRate := sampleRate this; numChannels := numChannels this;
     calls := calls this; console := console this |}.

Definition set_inputBufferPtr (p : option Z) (this : SpeedyWasmWrapper)
  : SpeedyWasmWrapper :=
  {| _module := _module this; _streamPtr := _streamPtr this;
     _inputBufferPtr := p;
     _outputBufferPtr := _outputBufferPtr this;
     _inputBufferSize := _inputBufferSize this;
     _outputBufferSize := _outputBufferSize this;
     sampleRate := sampleRate this; numChannels := numChannels this;
     calls := calls this; console := console this |}.

Definition set_outputBufferPtr (p : option Z) (this : SpeedyWasmWrapper)
  : SpeedyWasmWrapper :=
  {| _module := _module this; _streamPtr := _streamPtr this;
     _inputBufferPtr := _inputBufferPtr this;
     _outputBufferPtr := p;
     _inputBufferSize := _inputBufferSize this;
     _outputBufferSize := _outputBufferSize this;
     sampleRate := sampleRate this; numChannels := numChannels this;
     calls := calls this; console := console this |}.

Definition set_bufferSizes (input output : Z) (this : SpeedyWasmWrapper)
  : SpeedyWasmWrapper :=
  {| _module := _module this; _streamPtr := _streamPtr this;
     _inputBufferPtr := _inputBufferPtr this;
     _outputBufferPtr := _outputBufferPtr this;
     _inputBufferSize := input;
     _outputBufferSize := output;
     sampleRate := sampleRate this; numChannels := numChannels this;
     calls := calls this; console := console this |}.

Definition set_format (rate channels : Z) (this : SpeedyWasmWrapper)
  : SpeedyWasmWrapper :=
  {| _module := _module this; _streamPtr := _streamPtr this;
     _inputBufferPtr := _inputBufferPtr this;
     _outputBufferPtr := _outputBufferPtr this;
     _inputBufferSize := _inputBufferSize this;
     _outputBufferSize := _outputBufferSize this;
     sampleRate := rate; numChannels := channels;
     calls := calls this; console := console this |}.

Definition add_call (c : api_call) (this : SpeedyWasmWrapper)
  : SpeedyWasmWrapper :=
  {| _module := _module this; _streamPtr := _streamPtr this;
     _inputBufferPtr := _inputBufferPtr this;
     _outputBufferPtr := _outputBufferPtr this;
     _inputBufferSize := _inputBufferSize this;
     _outputBufferSize := _outputBufferSize this;
     sampleRate := sampleRate this; numChannels := numChannels this;
     calls := calls this ++ [c]; console := console this |}.

Definition add_line (line : string) (this : SpeedyWasmWrapper)
  : SpeedyWasmWrapper :=
  {| _module := _module this; _streamPtr := _streamPtr this;
     _inputBufferPtr := _inputBufferPtr this;
     _outputBufferPtr := _outputBufferPtr this;
     _inputBufferSize := _inputBufferSize this;
     _outputBufferSize := _outputBufferSize this;
     sampleRate := sampleRate this; numChannels := numChannels this;
     calls := calls this; console := console this ++ [line] |}.

(** [new SpeedyWasmWrapper()] *)
Definition new : SpeedyWasmWrapper :=
  {| _module := None; _streamPtr := None; _inputBufferPtr := None;
     _outputBufferPtr := None; _inputBufferSize := 0; _outputBufferSize := 0;
     sampleRate := 0; numChannels := 0; calls := []; console := [] |}.

(** Methods run on [this] and complete normally or abruptly. *)
Definition J (A : Type) : Type :=
  SpeedyWasmWrapper -> completion A * SpeedyWasmWrapper.

Definition jret {A} (a : A) : J A := fun this => (Normal a, this).
Definition jthrow {A} (t : thrown) : J A := fun this => (Abrupt t, this).
Definition jbind {A B} (m : J A) (k : A -> J B) : J B :=
  fun this =>
    match m this with
    | (Normal a, this') => k a this'
    | (Abrupt t, this') => (Abrupt t, this')
    end.
Definition jget : J SpeedyWasmWrapper := fun this => (Normal this, this).
Definition jmodify (f : SpeedyWasmWrapper -> SpeedyWasmWrapper) : J unit :=
  fun this => (Normal tt, f this).

Declare Scope wrapper_scope.
Notation "'let*' x ':=' m 'in' k" := (jbind m (fun x => k))
  (at level 10, x pattern, m at level 100, k at level 200) : wrapper_scope.
Notation "m ';;' k" := (jbind m (fun _ => k))
  (at level 100, k at level 200, right associativity) : wrapper_scope.
Local Open Scope wrapper_scope.

Definition console_log (line : string) : J unit := jmodify (add_line line).

(** [this._wasmApi.f(...)]: a property read on [null] before [init]. *)
Definition api {A} (call : Mo -> A * Mo) (event : A -> api_call) : J A :=
  fun this =>
    match _module this with
    | Some m =>
        let '(a, m') := call m in
        (Normal a, add_call (event a) (set_module (Some m') this))
    | None =>
        (Abrupt (Native (TypeError "Cannot read properties of null")), this)
    end.

(** [new Float32Array(this._module.HEAPF32.buffer, ptr, length)]: a view
    of [length] floats at [ptr], which [malloc] returned.  A negative
    length is refused. *)
Definition Float32Array_view (length : Z) : J Z :=
  fun this =>
    match _module this with
    | Some _ =>
        if length <? 0
        then (Abrupt (Native (RangeError "Invalid typed array length")), this)
        else (Normal length, this)
    | None =>
        (Abrupt (Native (TypeError "Cannot read properties of null")), this)
    end.

(** What a view of [length] floats at [ptr] holds. *)
Definition view_contents (m : Mo) (ptr length : Z) : list float :=
  (fun i : nat => HEAPF32 m (ptr + 4 * Z.of_nat i)) <$> seq 0 (Z.to_nat length).

(** [view.set(samples)] *)
Fixpoint copy_to_heap (ptr : Z) (samples : list float) (m : Mo) : Mo :=
  match samples with
  | [] => m
  | x :: rest => copy_to_heap (ptr + 4) rest (HEAPF32_store ptr x m)
  end.

Definition view_set (ptr : Z) (samples : list float) : J unit :=
  jmodify (fun this =>
    set_module (copy_to_heap ptr samples <$> _module this) this).

Definition read_view (ptr length : Z) : J (list float) :=
  fun this =>
    match _module this with
    | Some m => (Normal (view_contents m ptr length), this)
    | None =>
        (Abrupt (Native (TypeError "Cannot read properties of null")), this)
    end.

(** [init()]: [instance] is the module that [await Module()] delivers. *)
Definition init (instance : Mo) : J unit :=
  let* this := jget in
  match _module this with
  | Some _ => jret tt
  | None =>
      jmodify (set_module (Some instance)) ;;
      console_log "Speedy WASM module initialized."
  end.

Definition destroy : J unit :=
  let* this := jget in
  (if truthy (_streamPtr this)
   then
     api (fun m => (tt, sonicIntDestroyStream (number (_streamPtr this)) m))
       (fun _ => DestroyStream (number (_streamPtr this))) ;;
     jmodify (set_streamPtr None)
   else jret tt) ;;
  let* this := jget in
  (if truthy (_inputBufferPtr this)
   then
     api (fun m => (tt, _free (number (_inputBufferPtr this)) m))
       (fun _ => Free (number (_inputBufferPtr this))) ;;
     jmodify (set_inputBufferPtr None) ;;
     jmodify (fun this => set_bufferSizes 0 (_outputBufferSize this) this)
   else jret tt) ;;
  let* this := jget in
  (if truthy (_outputBufferPtr this)
   then
     api (fun m => (tt, _free (number (_outputBufferPtr this)) m))
       (fun _ => Free (number (_outputBufferPtr this))) ;;
     jmodify (set_outputBufferPtr None) ;;
     jmodify (fun this => set_bufferSizes (_inputBufferSize this) 0 this)
   else jret tt) ;;
  jmodify (set_format 0 0) ;;
  console_log "Speedy stream and buffers destroyed.".

(** [create(sampleRate, numChannels, inputBufferSize, outputBufferSize)];
    the last two default to 8192 and 16384. *)
Definition create (sampleRate numChannels inputBufferSize outputBufferSize : Z)
  : J unit :=
  let* this := jget in
  match _module this with
  | None => jthrow (Error "WASM module not initialized. Call init() first.")
  | Some _ =>
      (if truthy (_streamPtr this) then destroy else jret tt) ;;
      jmodify (set_format sampleRate numChannels) ;;
      let* streamPtr :=
        api (sonicIntCreateStream sampleRate numChannels)
          (CreateStream sampleRate numChannels) in
      jmodify (set_streamPtr (Some streamPtr)) ;;
      if negb (truthy (Some streamPtr))
      then jthrow (Error "Failed to create Speedy stream.")
      else
        jmodify (set_bufferSizes inputBufferSize outputBufferSize) ;;
        let* inputBufferPtr :=
          api (_malloc (inputBufferSize * numChannels * 4))
            (Malloc (inputBufferSize * numChannels * 4)) in
        jmodify (set_inputBufferPtr (Some inputBufferPtr)) ;;
        let* outputBufferPtr :=
          api (_malloc (outputBufferSize * numChannels * 4))
            (Malloc (outputBufferSize * numChannels * 4)) in
        jmodify (set_outputBufferPtr (Some outputBufferPtr)) ;;
        if negb (truthy (Some inputBufferPtr))
           || negb (truthy (Some outputBufferPtr))
        then
          destroy ;;
          jthrow (Error "Failed to allocate WASM memory buffers.")
        else
          console_log
            ("Speedy stream created (ptr: " +:+ pretty streamPtr +:+ ") for "
             +:+ pretty numChannels +:+ "ch @ " +:+ pretty sampleRate +:+ "Hz")
  end.

Definition create_default (sampleRate numChannels : Z) : J unit :=
  create sampleRate numChannels 8192 16384.

Definition process (inputFloat32Array : Bindings.val) : J (list float) :=
  let* this := jget in
  if negb (truthy (_streamPtr this))
  then jthrow (Error "Stream not created. Call create() first.")
  else
    match inputFloat32Array with
    | Bindings.Float32Array samples =>
        let len := Z.of_nat (length samples) in
        match Js.rem len (numChannels this) with
        | Some 0 =>
            let inputSamplesPerChannel := len / numChannels this in
            let* viewLength :=
              Float32Array_view (_inputBufferSize this * numChannels this) in
            let* samples :=
              (if viewLength <? len
               then
                 console_log
                   ("Input data (" +:+ pretty len
                    +:+ " floats) larger than allocated WASM input buffer ("
                    +:+ pretty viewLength +:+ " floats). Truncating.") ;;
                 jret (take (Z.to_nat viewLength) samples)
               else jret samples) in
            view_set (number (_inputBufferPtr this)) samples ;;
            let* samplesWritten :=
              api (sonicIntWriteFloatToStream (number (_streamPtr this))
                     (number (_inputBufferPtr this)) inputSamplesPerChannel)
                (WriteFloat (number (_streamPtr this))
                   (number (_inputBufferPtr this)) inputSamplesPerChannel) in
            if samplesWritten =? 0
            then
              console_log "Failed to write samples to Speedy stream." ;;
              jret []
            else
              let* outLength :=
                Float32Array_view (_outputBufferSize this * numChannels this) in
              let* samplesReadPerChannel :=
                api (sonicIntReadFloatFromStream (number (_streamPtr this))
                       (number (_outputBufferPtr this)) (_outputBufferSize this))
                  (ReadFloat (number (_streamPtr this))
                     (number (_outputBufferPtr this)) (_outputBufferSize this)) in
              if 0 <? samplesReadPerChannel
              then
                let totalSamplesRead := samplesReadPerChannel * numChannels this in
                if totalSamplesRead <? 0
                then jthrow (Native (RangeError "Invalid typed array length"))
                else
                  let* view :=
                    read_view (number (_outputBufferPtr this)) outLength in
                  jret (Bindings.resize totalSamplesRead view)
              else jret []
        | _ =>
            jthrow (Error
              ("Input length (" +:+ pretty len
               +:+ ") must be a multiple of the number of channels ("
               +:+ pretty (numChannels this) +:+ ")."))
        end
    | _ => jthrow (Error "Input must be a Float32Array.")
    end.

(** The [while (true)] loop of [flush]: [None] when [fuel] reads were not
    enough to see the stream dry. *)
Fixpoint flush_loop (fuel : nat) (outLength : Z)
    (outputChunks : list (list float)) (totalSamplesRead : Z)
    (this : SpeedyWasmWrapper)
  : option (completion (list (list float) * Z) * SpeedyWasmWrapper) :=
  match fuel with
  | O => None
  | S fuel' =>
      match
        api (sonicIntReadFloatFromStream (number (_streamPtr this))
               (number (_outputBufferPtr this)) (_outputBufferSize this))
          (ReadFloat (number (_streamPtr this))
             (number (_outputBufferPtr this)) (_outputBufferSize this)) this
      with
      | (Normal samplesReadPerChannel, this') =>
          if samplesReadPerChannel <=? 0
          then Some (Normal (outputChunks, totalSamplesRead), this')
          else
            let currentChunkSamples := samplesReadPerChannel * numChannels this' in
            if currentChunkSamples <? 0
            then Some (Abrupt (Native (RangeError "Invalid typed array length")),
                       this')
            else
              match read_view (number (_outputBufferPtr this')) outLength this' with
              | (Normal view, this'') =>
                  flush_loop fuel' outLength
                    (outputChunks ++ [Bindings.resize currentChunkSamples view])
                    (totalSamplesRead + currentChunkSamples) this''
              | (Abrupt t, this'') => Some (Abrupt t, this'')
              end
      | (Abrupt t, this') => Some (Abrupt t, this')
      end
  end.

(** What [flush] returns for the chunks it read. *)
Definition flush_result (outputChunks : list (list float))
    (totalSamplesRead : Z) : completion (list float) :=
  match outputChunks with
  | [] => Normal []
  | [chunk] => Normal chunk
  | _ =>
      if totalSamplesRead <? 0
      then Abrupt (Native (RangeError "Invalid typed array length"))
      else concatenate outputChunks
             (replicate (Z.to_nat totalSamplesRead) 0%float) 0
  end.

(** [flush] up to its loop: the export is called, a failure is logged,
    and the view of the output buffer is made. *)
Definition flush_begin : J Z :=
  let* this := jget in
  let* flushed :=
    api (sonicIntFlushStream (number (_streamPtr this)))
      (Flush (number (_streamPtr this))) in
  (if flushed =? 0
   then console_log "Failed to flush Speedy stream."
   else jret tt) ;;
  Float32Array_view (_outputBufferSize this * numChannels this).

Definition flush (fuel : nat) (this : SpeedyWasmWrapper)
  : option (completion (list float) * SpeedyWasmWrapper) :=
  if negb (truthy (_streamPtr this))
  then Some (Abrupt (Error "Stream not created."), this)
  else
    match flush_begin this with
    | (Normal outLength, this') =>
        match flush_loop fuel outLength [] 0 this' with
        | Some (Normal (outputChunks, totalSamplesRead), this'') =>
            Some (flush_result outputChunks totalSamplesRead, this'')
        | Some (Abrupt t, this'') => Some (Abrupt t, this'')
        | None => None
        end
    | (Abrupt t, this') => Some (Abrupt t, this')
    end.

Definition setSpeed (speed : float) : J unit :=
  let* this := jget in
  if negb (truthy (_streamPtr this))
  then jthrow (Error "Stream not created.")
  else
    api (fun m => (tt, sonicIntSetSpeed (number (_streamPtr this)) speed m))
      (fun _ => SetSpeed (number (_streamPtr this)) speed).

(** [enable] is the truthiness of the argument. *)
Definition enableNonlinear (enable : bool) : J unit :=
  let* this := jget in
  if negb (truthy (_streamPtr this))
  then jthrow (Error "Stream not created.")
  else
    let factor := if enable then 1%float else 0%float in
    api (fun m => (tt, sonicEnableNonlinearSpeedup (number (_streamPtr this))
                         factor m))
      (fun _ => EnableNonlinear (number (_streamPtr this)) factor).

Definition setDurationFeedback (strength : float) : J unit :=
  let* this := jget in
  if negb (truthy (_streamPtr this))
  then jthrow (Error "Stream not created.")
  else
    api (fun m => (tt, sonicSetDurationFeedbackStrength
                         (number (_streamPtr this)) strength m))
      (fun _ => SetDurationFeedback (number (_streamPtr this)) strength).

(** *** Sequences of method calls on one wrapper *)

Inductive op : Type :=
  | Init (instance : Mo)
  | Create (sampleRate numChannels inputBufferSize outputBufferSize : Z)
  | Process (inputFloat32Array : Bindings.val)
  | FlushWithin (fuel : nat)
  | SetSpeedTo (speed : float)
  | EnableNonlinearIf (enable : bool)
  | SetDurationFeedbackTo (strength : float)
  | Destroy.

Definition returning_nothing {A} (r : completion A * SpeedyWasmWrapper)
  : completion (list float) * SpeedyWasmWrapper :=
  match r with
  | (Normal _, this) => (Normal [], this)
  | (Abrupt t, this) => (Abrupt t, this)
  end.

(** One call; [None] when a flush did not see the stream dry within its
    fuel. *)
Definition perform (o : op) (this : SpeedyWasmWrapper)
  : option (completion (list float) * SpeedyWasmWrapper) :=
  match o with
  | Init instance => Some (returning_nothing (init instance this))
  | Create sampleRate numChannels inputBufferSize outputBufferSize =>
      Some (returning_nothing
              (create sampleRate numChannels inputBufferSize outputBufferSize this))
  | Process inputFloat32Array => Some (process inputFloat32Array this)
  | FlushWithin fuel => flush fuel this
  | SetSpeedTo speed => Some (returning_nothing (setSpeed speed this))
  | EnableNonlinearIf enable => Some (returning_nothing (enableNonlinear enable this))
  | SetDurationFeedbackTo strength =>
      Some (returning_nothing (setDurationFeedback strength this))
  | Destroy => Some (returning_nothing (destroy this))
  end.

Fixpoint run (ops : list op) (this : SpeedyWasmWrapper)
  : option SpeedyWasmWrapper :=
  match ops with
  | [] => Some this
  | o :: ops' =>
      match perform o this with
      | Some (_, this') => run ops' this'
      | None => None
      end
  end.

(** What the wrapper holds. *)
Definition held_streams (this : SpeedyWasmWrapper) : list Z :=
  if truthy (_streamPtr this) then [number (_streamPtr this)] else [].

Definition held_blocks (this : SpeedyWasmWrapper) : list Z :=
  (if truthy (_inputBufferPtr this) then [number (_inputBufferPtr this)] else [])
  ++ (if truthy (_outputBufferPtr this)
      then [number (_outputBufferPtr this)] else []).

(** The wrapper holds exactly what the module has handed out and not got
    back; it holds buffers only with a stream, and anything only once the
    module is there. *)
Definition owns_what_is_live (this : SpeedyWasmWrapper) : Prop :=
  live_streams (calls this) = held_streams this /\
  live_blocks (calls this) = held_blocks this /\
  (truthy (_streamPtr this) = false ->
     truthy (_inputBufferPtr this) = false /\
     truthy (_outputBufferPtr this) = false) /\
  (truthy (_streamPtr this) = true -> is_Some (_module this)).

(** *** Facts about the wrapper, for any module *)

Lemma live_streams_snoc cs c :
  live_streams (cs ++ [c])
  = match c with
    | CreateStream _ _ returned =>
        if returned =? 0 then live_streams cs else live_streams cs ++ [returned]
    | DestroyStream stream => remove_first stream (live_streams cs)
    | _ => live_streams cs
    end.
Proof. unfold live_streams. by rewrite foldl_snoc. Qed.

Lemma live_blocks_snoc cs c :
  live_blocks (cs ++ [c])
  = match c with
    | Malloc _ returned =>
        if returned =? 0 then live_blocks cs else live_blocks cs ++ [returned]
    | Free ptr => remove_first ptr (live_blocks cs)
    | _ => live_blocks cs
    end.
Proof. unfold live_blocks. by rewrite foldl_snoc. Qed.

(** [this'] holds what [this] holds, and nothing was handed out or given
    back in between. *)
Definition same_holdings (this this' : SpeedyWasmWrapper) : Prop :=
  _streamPtr this' = _streamPtr this /\
  _inputBufferPtr this' = _inputBufferPtr this /\
  _outputBufferPtr this' = _outputBufferPtr this /\
  live_streams (calls this') = live_streams (calls this) /\
  live_blocks (calls this') = live_blocks (calls this) /\
  (is_Some (_module this) -> is_Some (_module this')).

Definition neutral {A} (m : J A) : Prop :=
  forall this, same_holdings this (snd (m this)).

Lemma same_holdings_refl this : same_holdings this this.
Proof. by repeat split. Qed.

Lemma same_holdings_trans a b c :
  same_holdings a b -> same_holdings b c -> same_holdings a c.
Proof. unfold same_holdings. intuition congruence. Qed.

Lemma same_holdings_owns this this' :
  owns_what_is_live this -> same_holdings this this' -> owns_what_is_live this'.
Proof.
  unfold owns_what_is_live, same_holdings, held_streams, held_blocks.
  intros (H1 & H2 & H3 & H4) (E1 & E2 & E3 & E4 & E5 & E6).
  rewrite E1, E2, E3, E4, E5. split; [done|]. split; [done|]. split; auto.
Qed.

Lemma neutral_ret {A} (a : A) : neutral (jret a).
Proof. intros this. apply same_holdings_refl. Qed.

Lemma neutral_throw {A} t : neutral (@jthrow A t).
Proof. intros this. apply same_holdings_refl. Qed.

Lemma neutral_get : neutral jget.
Proof. intros this. apply same_holdings_refl. Qed.

Lemma neutral_bind {A B} (m : J A) (k : A -> J B) :
  neutral m -> (forall a, neutral (k a)) -> neutral (jbind m k).
Proof.
  intros Hm Hk this. unfold jbind. specialize (Hm this).
  destruct (m this) as [[a|t] this1]; simpl in *; [|done].
  eapply same_holdings_trans; [done|]. apply Hk.
Qed.

Lemma neutral_console_log line : neutral (console_log line).
Proof. intros this. by repeat split. Qed.

Lemma neutral_view_set ptr samples : neutral (view_set ptr samples).
Proof.
  intros this. unfold view_set, jmodify, same_holdings. simpl.
  repeat split; try done. intros [m ->]. simpl. eauto.
Qed.

Lemma neutral_Float32Array_view length : neutral (Float32Array_view length).
Proof.
  intros this. unfold Float32Array_view.
  destruct (_module this); [destruct (length <? 0)|]; apply same_holdings_refl.
Qed.

Lemma neutral_read_view ptr length : neutral (read_view ptr length).
Proof.
  intros this. unfold read_view.
  destruct (_module this); apply same_holdings_refl.
Qed.

(** A call that neither allocates nor releases. *)
Definition moves_nothing (c : api_call) : Prop :=
  match c with
  | CreateStream _ _ _ | DestroyStream _ | Malloc _ _ | Free _ => False
  | _ => True
  end.

Lemma neutral_api {A} (call : Mo -> A * Mo) (event : A -> api_call) :
  (forall a, moves_nothing (event a)) -> neutral (api call event).
Proof.
  intros Hev this. unfold api.
  destruct (_module this) as [m|]; [|apply same_holdings_refl].
  destruct (call m) as [a m']. specialize (Hev a).
  unfold same_holdings. simpl.
  rewrite live_streams_snoc, live_blocks_snoc.
  destruct (event a); simpl in Hev; try done; repeat split; eauto.
Qed.

Ltac neutral_step :=
  first
    [ apply neutral_ret | apply neutral_throw | apply neutral_get
    | apply neutral_console_log | apply neutral_view_set
    | apply neutral_Float32Array_view | apply neutral_read_view
    | apply neutral_api; intros; exact I
    | apply neutral_bind; [|intros ?]
    | match goal with
      | |- neutral (if ?b then _ else _) => destruct b
      | |- neutral (match ?x with _ => _ end) => destruct x
      end ].

Lemma neutral_process input : neutral (process input).
Proof. unfold process. repeat neutral_step. Qed.

Lemma neutral_setSpeed speed : neutral (setSpeed speed).
Proof. unfold setSpeed. repeat neutral_step. Qed.

Lemma neutral_enableNonlinear enable : neutral (enableNonlinear enable).
Proof. unfold enableNonlinear. repeat neutral_step. Qed.

Lemma neutral_setDurationFeedback strength : neutral (setDurationFeedback strength).
Proof. unfold setDurationFeedback. repeat neutral_step. Qed.

Lemma neutral_init instance : neutral (init instance).
Proof.
  intros this. unfold init, jbind, jget. simpl.
  destruct (_module this) eqn:Hm; simpl; [apply same_holdings_refl|].
  unfold same_holdings. simpl. repeat split; eauto.
Qed.

Lemma flush_loop_same_holdings fuel outLength chunks total this r this' :
  flush_loop fuel outLength chunks total this = Some (r, this') ->
  same_holdings this this'.
Proof.
  revert chunks total this.
  induction fuel as [|fuel IH]; intros chunks total this; simpl; [done|].
  pose proof (neutral_api
                (sonicIntReadFloatFromStream (number (_streamPtr this))
                   (number (_outputBufferPtr this)) (_outputBufferSize this))
                (ReadFloat (number (_streamPtr this))
                   (number (_outputBufferPtr this)) (_outputBufferSize this))
                (fun _ => I) this) as H1.
  destruct (api _ _ this) as [[n|t] this1]; simpl in *;
    [|by intros [= <- <-]].
  destruct (n <=? 0); [by intros [= <- <-]|].
  destruct (n * numChannels this1 <? 0); [by intros [= <- <-]|].
  pose proof (neutral_read_view (number (_outputBufferPtr this1)) outLength this1)
    as H2.
  destruct (read_view _ outLength this1) as [[view|t] this2]; simpl in *.
  - intros H. eapply same_holdings_trans; [done|].
    eapply same_holdings_trans; [done|]. by eapply IH.
  - intros [= <- <-]. by eapply same_holdings_trans.
Qed.

Lemma flush_same_holdings fuel this r this' :
  flush fuel this = Some (r, this') -> same_holdings this this'.
Proof.
  unfold flush. destruct (negb (truthy (_streamPtr this)));
    [intros [= <- <-]; apply same_holdings_refl|].
  assert (neutral flush_begin) as Hn by (unfold flush_begin; repeat neutral_step).
  specialize (Hn this). destruct (flush_begin this) as [[outLength|t] this1];
    simpl in *; [|by intros [= <- <-]].
  destruct (flush_loop fuel outLength [] 0 this1) as [[[[chunks total]|t] this2]|]
    eqn:Hloop; [| |done].
  - intros [= <- <-]. eapply same_holdings_trans; [done|].
    by eapply flush_loop_same_holdings.
  - intros [= <- <-]. eapply same_holdings_trans; [done|].
    by eapply flush_loop_same_holdings.
Qed.

Lemma remove_first_head p live : remove_first p (p :: live) = live.
Proof. simpl. by rewrite Z.eqb_refl. Qed.

Lemma destroy_owns this :
  owns_what_is_live this ->
  exists this',
    destroy this = (Normal tt, this') /\
    owns_what_is_live this' /\
    truthy (_streamPtr this') = false /\
    (is_Some (_module this) -> is_Some (_module this')).
Proof.
  destruct this as [m sp ip op isz osz sr ch cs con].
  unfold owns_what_is_live, held_streams, held_blocks. simpl.
  intros (H1 & H2 & H3 & H4).
  unfold destroy, jbind, jget, jmodify, console_log, api. simpl.
  destruct (truthy sp) eqn:Hsp.
  - destruct (H4 eq_refl) as [mo ->]. simpl.
    destruct (truthy ip) eqn:Hip; simpl; destruct (truthy op) eqn:Hop; simpl;
      (eexists; split; [reflexivity|]); simpl;
      rewrite ?live_streams_snoc, ?live_blocks_snoc, H1, H2;
      rewrite ?Hsp, ?Hip, ?Hop; simpl; rewrite ?Z.eqb_refl; simpl;
      rewrite ?Z.eqb_refl; eauto 10.
  - destruct (H3 eq_refl) as [Hip Hop]. unfold jret. simpl.
    rewrite Hip. simpl. rewrite Hop. simpl.
    eexists. split; [reflexivity|]. simpl. rewrite Hip, Hop in *.
    rewrite Hsp. eauto 10.
Qed.

Lemma create_owns this sampleRate numChannels inputBufferSize outputBufferSize :
  owns_what_is_live this ->
  owns_what_is_live
    (snd (create sampleRate numChannels inputBufferSize outputBufferSize this)).
Proof.
  intros Hown. unfold create. unfold jbind at 1. unfold jget. cbv beta iota.
  destruct (_module this) as [m|] eqn:Hm; [|done].
  set (d := destroy). unfold jbind at 1.
  assert (exists this1,
            (if truthy (_streamPtr this) then d else jret tt) this
            = (Normal tt, this1) /\
            owns_what_is_live this1 /\ truthy (_streamPtr this1) = false /\
            is_Some (_module this1)) as (this1 & -> & Hown1 & Hsp1 & [m1 Hm1]).
  { destruct (truthy (_streamPtr this)) eqn:Hsp.
    - destruct (destroy_owns this Hown) as (this1 & Hd & H1 & H2 & H3).
      exists this1. rewrite Hm in H3. eauto.
    - exists this. rewrite Hm. eauto. }
  destruct this1 as [mo sp ip op isz osz sr ch cs con]. simpl in Hm1. subst mo.
  destruct Hown1 as (H1 & H2 & H3 & _).
  unfold held_streams, held_blocks in *. simpl in *.
  destruct (H3 Hsp1) as [Hip Hop]. rewrite Hsp1 in H1. rewrite Hip, Hop in H2.
  simpl in H2.
  unfold jbind, jmodify, api. simpl.
  destruct (sonicIntCreateStream sampleRate numChannels m1) as [r m2]. simpl.
  destruct (r =? 0) eqn:Hr; simpl.
  { unfold owns_what_is_live, held_streams, held_blocks. simpl.
    rewrite live_streams_snoc, live_blocks_snoc, Hr, Hip, Hop. simpl.
    rewrite ?Hr. done. }
  destruct (_malloc (inputBufferSize * numChannels * 4) m2) as [ri m3]. simpl.
  destruct (_malloc (outputBufferSize * numChannels * 4) m3) as [ro m4]. simpl.
  match goal with
  | |- owns_what_is_live (snd (_ ?s)) =>
      assert (owns_what_is_live s) as Hown2; [|set (this2 := s) in *]
  end.
  { unfold owns_what_is_live, held_streams, held_blocks. simpl.
    rewrite !live_streams_snoc, !live_blocks_snoc, Hr, H1, H2. simpl.
    destruct (ri =? 0), (ro =? 0); simpl; eauto 10. }
  destruct (negb (negb (ri =? 0)) || negb (negb (ro =? 0))).
  - destruct (destroy_owns this2 Hown2) as (this3 & Hd & Hown3 & _).
    subst d. cbv beta. rewrite Hd. done.
  - unfold console_log, jmodify. simpl.
    eapply same_holdings_owns; [exact Hown2|]. by repeat split.
Qed.

Lemma perform_owns o this r this' :
  owns_what_is_live this -> perform o this = Some (r, this') ->
  owns_what_is_live this'.
Proof.
  intros Hown.
  destruct o as [instance|sr ch isz osz|input|fuel|speed|enable|strength|]; simpl.
  - pose proof (neutral_init instance this) as Hn.
    destruct (init instance this) as [[[]|t] this1]; simpl in *;
      intros [= <- <-]; by eapply same_holdings_owns.
  - pose proof (create_owns this sr ch isz osz Hown) as Hc.
    destruct (create _ _ _ _ this) as [[[]|t] this1]; simpl in *;
      by intros [= <- <-].
  - pose proof (neutral_process input this) as Hn.
    destruct (process input this) as [c this1]; simpl in *.
    intros [= <- <-]. by eapply same_holdings_owns.
  - intros Hf. eapply same_holdings_owns; [done|]. by eapply flush_same_holdings.
  - pose proof (neutral_setSpeed speed this) as Hn.
    destruct (setSpeed speed this) as [[[]|t] this1]; simpl in *;
      intros [= <- <-]; by eapply same_holdings_owns.
  - pose proof (neutral_enableNonlinear enable this) as Hn.
    destruct (enableNonlinear enable this) as [[[]|t] this1]; simpl in *;
      intros [= <- <-]; by eapply same_holdings_owns.
  - pose proof (neutral_setDurationFeedback strength this) as Hn.
    destruct (setDurationFeedback strength this) as [[[]|t] this1]; simpl in *;
      intros [= <- <-]; by eapply same_holdings_owns.
  - destruct (destroy_owns this Hown) as (this1 & -> & Hown1 & _).
    simpl. by intros [= <- <-].
Qed.

Lemma new_owns : owns_what_is_live new.
Proof. by repeat split. Qed.

Lemma run_owns ops start this :
  owns_what_is_live start -> run ops start = Some this -> owns_what_is_live this.
Proof.
  revert start. induction ops as [|o ops IH]; intros start Hown; simpl.
  - by intros [= <-].
  - destruct (perform o start) as [[r this1]|] eqn:Hp; [|done].
    apply IH. by eapply perform_owns.
Qed.


(** X12.  A destroyed wrapper refuses use.  On a wrapper reached by any
    sequence of calls, [destroy] completes and leaves no stream and no
    buffer live; after it [process], [flush] and the three setters throw
    "Stream not created" without calling the module, and a second
    [destroy] calls nothing either. *)
Theorem a_destroyed_wrapper_refuses_use (ops : list op)
    (this : SpeedyWasmWrapper) input fuel speed enable strength :
  run ops new = Some this ->
  exists this',
    destroy this = (Normal tt, this') /\
    live_streams (calls this') = [] /\ live_blocks (calls this') = [] /\
    process input this'
    = (Abrupt (Error "Stream not created. Call create() first."), this') /\
    flush fuel this' = Some (Abrupt (Error "Stream not created."), this') /\
    setSpeed speed this' = (Abrupt (Error "Stream not created."), this') /\
    enableNonlinear enable this'
    = (Abrupt (Error "Stream not created."), this') /\
    setDurationFeedback strength this'
    = (Abrupt (Error "Stream not created."), this') /\
    calls (snd (destroy this')) = calls this'.
Proof.
  intros Hrun. pose proof (run_owns ops new this new_owns Hrun) as Hown.
  destruct (destroy_owns this Hown) as (this' & Hd & Hown' & Hsp & _).
  exists this'. split; [done|].
  destruct Hown' as (H1 & H2 & H3 & _). destruct (H3 Hsp) as [Hip Hop].
  unfold held_streams, held_blocks in *. rewrite Hsp in H1. rewrite Hip, Hop in H2.
  split; [done|]. split; [done|].
  unfold process, flush, setSpeed, enableNonlinear, setDurationFeedback,
    destroy, jbind, jget, jret. simpl. rewrite Hsp. simpl.
  rewrite Hip. simpl. rewrite Hop. done.
Qed.

(** *** [process] and the input buffer *)


(** *** [flush] and its chunks *)







End Api.

(** *** A module instance to run the wrapper on

    A bump allocator that fails once its heap is used up, and a stream that
    holds back the samples written to it until they are read; the float at
    an address is the address. *)
Record instance : Type := {
  brk : Z;
  stored : Z
}.

Definition heap_end : Z := 65536.

Definition toy_malloc (bytes : Z) (m : instance) : Z * instance :=
  if heap_end <? brk m + bytes then (0, m)
  else (brk m, {| brk := brk m + bytes; stored := stored m |}).

Definition toy_free (ptr : Z) (m : instance) : instance := m.

Definition toy_sonicIntCreateStream (sampleRate numChannels : Z) (m : instance)
  : Z * instance := toy_malloc 64 m.

Definition toy_sonicIntDestroyStream (stream : Z) (m : instance) : instance :=
  {| brk := brk m; stored := 0 |}.

Definition toy_sonicIntWriteFloatToStream (stream buffer samples : Z)
    (m : instance) : Z * instance :=
  (1, {| brk := brk m; stored := stored m + samples |}).

Definition toy_sonicIntReadFloatFromStream (stream buffer maxSamples : Z)
    (m : instance) : Z * instance :=
  let n := Z.min (stored m) maxSamples in
  (n, {| brk := brk m; stored := stored m - n |}).

Definition toy_sonicIntFlushStream (stream : Z) (m : instance) : Z * instance :=
  (1, m).

Definition toy_setter (stream : Z) (value : float) (m : instance) : instance := m.

Definition toy_HEAPF32 (m : instance) (address : Z) : float :=
  PrimFloat.of_uint63 (Uint63.of_Z address).

Definition toy_HEAPF32_store (address : Z) (value : float) (m : instance)
  : instance := m.

Definition start : instance := {| brk := 1024; stored := 0 |}.

(** The wrapper, linked against this module. *)
Abbreviation toy_run :=
  (run toy_sonicIntCreateStream toy_sonicIntDestroyStream
     toy_sonicIntWriteFloatToStream toy_sonicIntReadFloatFromStream
     toy_sonicIntFlushStream toy_setter toy_setter toy_setter toy_malloc toy_free
     toy_HEAPF32 toy_HEAPF32_store).

Abbreviation toy_process :=
  (process toy_sonicIntWriteFloatToStream toy_sonicIntReadFloatFromStream
     toy_HEAPF32 toy_HEAPF32_store).

Abbreviation toy_flush :=
  (flush toy_sonicIntReadFloatFromStream toy_sonicIntFlushStream toy_HEAPF32).

Abbreviation toy_flush_loop :=
  (flush_loop toy_sonicIntReadFloatFromStream toy_HEAPF32).

Abbreviation toy_destroy := (destroy toy_sonicIntDestroyStream toy_free).

(** A life with a creation that fails for want of memory. *)
Definition a_life : list op :=
  [Init start; Create 22050 1 2 2;
   Process (Bindings.Float32Array [1; 2]%float); FlushWithin 3;
   Create 22050 2 100000 2; SetSpeedTo 2; Create 44100 2 2 2].

Definition after_a_life : SpeedyWasmWrapper :=
  Eval vm_compute in default new (toy_run a_life new).

(** A wrapper with a mono stream and buffers of two samples. *)
Definition created : SpeedyWasmWrapper :=
  Eval vm_compute in default new (toy_run [Init start; Create 22050 1 2 2] new).


(** A wrapper with an output buffer of two samples, after seven samples
    were processed: two have been read, five are still in the stream. *)
Definition loaded : SpeedyWasmWrapper :=
  Eval vm_compute in
    default new
      (toy_run
         [Init start; Create 22050 1 8 2;
          Process (Bindings.Float32Array [1; 2; 3; 4; 5; 6; 7]%float)] new).

Definition flushing : SpeedyWasmWrapper :=
  Eval vm_compute in snd (flush_begin toy_sonicIntFlushStream loaded).

Definition flushed : SpeedyWasmWrapper :=
  Eval vm_compute in
    match toy_flush_loop 4 2 [] 0 flushing
    with
    | Some (_, this) => this
    | None => new
    end.

Definition the_chunks : list (list float) :=
  Eval vm_compute in
    match toy_flush_loop 4 2 [] 0 flushing
    with
    | Some (Normal (outputChunks, _), _) => outputChunks
    | _ => []
    end.


(** In that life the second creation releases the first stream and its
    buffers, fails to allocate, and releases its own stream again. *)
Lemma a_failed_creation_releases_everything :
  live_streams (calls (default new (toy_run (take 5 a_life) new))) = [] /\
  live_blocks (calls (default new (toy_run (take 5 a_life) new))) = [] /\
  drop 10 (calls (default new (toy_run (take 5 a_life) new)))
  = [CreateStream 22050 2 1104; Malloc 800000 0; Malloc 16 1168;
     DestroyStream 1104; Free 1168].
Proof. vm_compute. repeat split. Qed.

Lemma a_destroyed_wrapper_refuses_use_after_a_life :
  toy_run a_life new = Some after_a_life /\
  exists this',
    toy_destroy after_a_life = (Normal tt, this') /\
    live_streams (calls this') = [] /\ live_blocks (calls this') = [] /\
    toy_process (Bindings.Float32Array [1]%float) this'
    = (Abrupt (Error "Stream not created. Call create() first."), this') /\
    toy_flush 1 this' = Some (Abrupt (Error "Stream not created."), this') /\
    setSpeed toy_setter 2 this'
    = (Abrupt (Error "Stream not created."), this') /\
    enableNonlinear toy_setter true this'
    = (Abrupt (Error "Stream not created."), this') /\
    setDurationFeedback toy_setter 0.5 this'
    = (Abrupt (Error "Stream not created."), this') /\
    calls (snd (toy_destroy this')) = calls this'.
Proof.
  assert (toy_run a_life new = Some after_a_life) as Hrun
    by (vm_compute; reflexivity).
  split; [exact Hrun|].
  exact (a_destroyed_wrapper_refuses_use toy_sonicIntCreateStream
           toy_sonicIntDestroyStream toy_sonicIntWriteFloatToStream
           toy_sonicIntReadFloatFromStream toy_sonicIntFlushStream toy_setter
           toy_setter toy_setter toy_malloc toy_free toy_HEAPF32
           toy_HEAPF32_store a_life after_a_life
           (Bindings.Float32Array [1]%float) 1%nat 2%float true 0.5%float Hrun).
Defined.


(** With a buffer of two samples the engine was told to take five. *)
Lemma five_samples_from_a_buffer_of_two :
  calls (snd (toy_process (Bindings.Float32Array [1; 2; 3; 4; 5]%float) created))
  = calls created ++ [WriteFloat 1024 1088 5 1; ReadFloat 1024 1096 2 2].
Proof. vm_compute. reflexivity. Qed.


(** The five samples came in three chunks, of two, two and one. *)
Lemma three_chunks_were_read :
  length <$> the_chunks = [2; 2; 1]%nat /\
  length (concat the_chunks) = 5%nat.
Proof. vm_compute. done. Qed.

End Wrapper.
